(** * snake_py: the A* move policy of the snake game, and its game loop

    A shallow embedding of [astar_pathfinding.py] (the [Node] and
    [AStarPathfinder] classes, the [SnakeAI] controller), of the binary heap of
    Python's [heapq] that the search uses as its frontier, and of the tick of
    the two game drivers ([snake_ai.py], [Snake.py]).

    Conventions.
    - Python [int] is [Z]; [//] is [Z.div] (both round towards minus infinity
      and give the remainder the sign of the divisor).
    - A position [[x, y]] or [(x, y)] is a pair [Z * Z].
    - A list used as an array (the heap) is a [list] read with stdpp's total
      lookup [l !!! i] and written with [<[i:=v]> l]; indices are [nat].
    - [random.randrange] is an input: the drawn numbers are arguments, and
      [randrange] says which numbers can be drawn. *)

From Stdlib Require Import ZArith List Lia ZifyNat Bool Permutation.
From stdpp Require Import base list.
Import ListNotations.

Local Open Scope Z_scope.

(** ** Node *)

(** [class Node]: grid coordinates, the three costs and the parent node.
    A parent is a reference to a node that is never written to again once it
    has been pushed on the frontier, so the reference is modelled by the node
    itself. *)
#[local] Unset Elimination Schemes.
Inductive Node : Type :=
  mkNode { node_x : Z; node_y : Z;
           g_cost : Z; h_cost : Z; f_cost : Z;
           parent : option Node }.
#[local] Set Elimination Schemes.

(** [Node.__init__(x, y)] *)
Definition Node_init (x y : Z) : Node := mkNode x y 0 0 0 None.

(** [Node.__lt__]: lower [f_cost] first. *)
Definition Node_lt (a b : Node) : bool := f_cost a <? f_cost b.

(** [Node.__eq__]: same coordinates. *)
Definition Node_eq (a b : Node) : bool :=
  (node_x a =? node_x b) && (node_y a =? node_y b).

Definition cell_of (n : Node) : Z * Z := (node_x n, node_y n).

#[global] Instance Node_inhabited : Inhabited Node := populate (Node_init 0 0).

(** ** heapq

    [heapq.heappush] and [heapq.heappop] of the Python standard library, with
    their two helper loops.  Each loop runs on a counter that bounds its number
    of iterations ([pos] halves in [_siftdown], [pos] grows up to [endpos] in
    [_siftup]); [siftdown_fuel_irrelevant] and [siftup_fuel_irrelevant] below
    show that supplying more fuel changes nothing. *)
Module heapq.
Local Open Scope nat_scope.

(** [while pos > startpos: ...] of [_siftdown], [newitem = heap[pos]] taken
    before the loop. *)
Fixpoint _siftdown_loop (fuel : nat) (heap : list Node) (startpos pos : nat)
    (newitem : Node) : list Node :=
  match fuel with
  | O => <[pos := newitem]> heap
  | S fuel' =>
      if startpos <? pos then
        let parentpos := (pos - 1) / 2 in
        let parent := heap !!! parentpos in
        if Node_lt newitem parent
        then _siftdown_loop fuel' (<[pos := parent]> heap) startpos parentpos newitem
        else <[pos := newitem]> heap
      else <[pos := newitem]> heap
  end.

Definition _siftdown (heap : list Node) (startpos pos : nat) : list Node :=
  _siftdown_loop pos heap startpos pos (heap !!! pos).

(** [while childpos < endpos: ...] of [_siftup]: the smaller child moves up
    until a leaf is reached; returns the heap and the leaf position. *)
Fixpoint _siftup_loop (fuel : nat) (heap : list Node) (endpos pos : nat)
    : list Node * nat :=
  match fuel with
  | O => (heap, pos)
  | S fuel' =>
      let childpos := 2 * pos + 1 in
      if childpos <? endpos then
        let rightpos := childpos + 1 in
        let childpos :=
          if (rightpos <? endpos)
             && negb (Node_lt (heap !!! childpos) (heap !!! rightpos))
          then rightpos else childpos in
        _siftup_loop fuel' (<[pos := heap !!! childpos]> heap) endpos childpos
      else (heap, pos)
  end.

Definition _siftup (heap : list Node) (pos : nat) : list Node :=
  let endpos := length heap in
  let startpos := pos in
  let newitem := heap !!! pos in
  let '(heap, pos) := _siftup_loop endpos heap endpos pos in
  _siftdown (<[pos := newitem]> heap) startpos pos.

(** [heappush(heap, item)]: append, then sift towards the root. *)
Definition heappush (heap : list Node) (item : Node) : list Node :=
  let heap := heap ++ [item] in
  _siftdown heap 0 (length heap - 1).

(** [heappop(heap)]: [None] stands for the [IndexError] of an empty heap. *)
Definition heappop (heap : list Node) : option (Node * list Node) :=
  match heap with
  | [] => None
  | _ =>
      let lastelt := List.last heap inhabitant in
      let heap := removelast heap in
      match heap with
      | [] => Some (lastelt, [])
      | returnitem :: _ => Some (returnitem, _siftup (<[0 := lastelt]> heap) 0)
      end
  end.
End heapq.

(** ** AStarPathfinder *)

Record AStarPathfinder : Type :=
  { cell_size : Z; grid_cols : Z; grid_rows : Z }.

(** [AStarPathfinder.__init__]; [None] stands for the [ZeroDivisionError] of a
    zero cell size. *)
Definition AStarPathfinder_init (grid_width grid_height cell_size : Z)
    : option AStarPathfinder :=
  if cell_size =? 0 then None
  else Some {| cell_size := cell_size;
               grid_cols := grid_width / cell_size;
               grid_rows := grid_height / cell_size |}.

Definition pixel_to_grid (pf : AStarPathfinder) (p : Z * Z) : Z * Z :=
  (fst p / cell_size pf, snd p / cell_size pf).

Definition grid_to_pixel (pf : AStarPathfinder) (c : Z * Z) : Z * Z :=
  (fst c * cell_size pf, snd c * cell_size pf).

Definition manhattan_distance (node1 node2 : Node) : Z :=
  Z.abs (node_x node1 - node_x node2) + Z.abs (node_y node1 - node_y node2).

(** [0 <= x < grid_cols and 0 <= y < grid_rows] *)
Definition in_bounds (pf : AStarPathfinder) (c : Z * Z) : bool :=
  (0 <=? fst c) && (fst c <? grid_cols pf) &&
  (0 <=? snd c) && (snd c <? grid_rows pf).

(** left, right, up, down *)
Definition directions : list (Z * Z) := [(-1, 0); (1, 0); (0, -1); (0, 1)].

Definition get_neighbors (pf : AStarPathfinder) (node : Node) : list Node :=
  flat_map
    (fun d => let new_x := node_x node + fst d in
              let new_y := node_y node + snd d in
              if in_bounds pf (new_x, new_y) then [Node_init new_x new_y] else [])
    directions.

Definition cell_eqb (a b : Z * Z) : bool :=
  (fst a =? fst b) && (snd a =? snd b).

(** The list [snake_grid_positions] that [is_safe_position] builds: the cells
    of the segments, without the last one when [ignore_tail] is set and there
    is more than one. *)
Definition snake_grid_positions (pf : AStarPathfinder) (snake_body : list (Z * Z))
    (ignore_tail : bool) : list (Z * Z) :=
  let positions := map (pixel_to_grid pf) snake_body in
  if ignore_tail && (1 <? Z.of_nat (length positions))
  then removelast positions else positions.

Definition is_safe_position (pf : AStarPathfinder) (x y : Z)
    (snake_body : list (Z * Z)) (ignore_tail : bool) : bool :=
  negb (existsb (cell_eqb (x, y)) (snake_grid_positions pf snake_body ignore_tail)).

(** [_reconstruct_path]: the cells from the goal node up the parent links, in
    pixels, reversed. *)
Fixpoint parent_chain (n : Node) : list Node :=
  n :: match parent n with
       | Some p => parent_chain p
       | None => []
       end.

Definition _reconstruct_path (pf : AStarPathfinder) (goal_node : Node)
    : list (Z * Z) :=
  rev (map (fun current => grid_to_pixel pf (cell_of current)) (parent_chain goal_node)).

(** [neighbor in closed_set].  The closed set is kept as the list of the nodes
    added to it, latest first; membership is by coordinates, as [__eq__] and
    [__hash__] make it.  A Python set would keep one node per cell;
    [search_terminates] shows that no cell is ever added twice, so the list
    and the set hold the same nodes. *)
Definition in_closed (neighbor : Node) (closed_set : list Node) : bool :=
  existsb (Node_eq neighbor) closed_set.

(** The body of [for neighbor in self.get_neighbors(current_node)]: what one
    neighbour does to the open set.  When an equal node is already in the open
    set, the new costs are written to the fresh [neighbor] object, which is
    then dropped: the heap entry stays as it is. *)
Definition visit_neighbor (pf : AStarPathfinder) (goal_node : Node)
    (snake_body : list (Z * Z)) (closed_set : list Node) (current_node : Node)
    (open_set : list Node) (neighbor : Node) : list Node :=
  if in_closed neighbor closed_set then open_set
  else if negb (is_safe_position pf (node_x neighbor) (node_y neighbor) snake_body true)
  then open_set
  else
    let tentative_g_cost := g_cost current_node + 1 in
    let existing_neighbor := find (fun node => Node_eq node neighbor) open_set in
    let improves :=
      match existing_neighbor with
      | None => true
      | Some e => tentative_g_cost <? g_cost e
      end in
    let neighbor :=
      if improves then
        let h := manhattan_distance neighbor goal_node in
        mkNode (node_x neighbor) (node_y neighbor)
               tentative_g_cost h (tentative_g_cost + h) (Some current_node)
      else neighbor in
    match existing_neighbor with
    | None => heapq.heappush open_set neighbor
    | Some _ => open_set
    end.

Definition expand (pf : AStarPathfinder) (goal_node : Node)
    (snake_body : list (Z * Z)) (closed_set : list Node) (current_node : Node)
    (open_set : list Node) : list Node :=
  fold_left (visit_neighbor pf goal_node snake_body closed_set current_node)
            (get_neighbors pf current_node) open_set.

(** What the [while open_set:] loop of [find_path] has done when it stops. *)
Inductive outcome : Type :=
| Returned (path : option (list (Z * Z)))  (* [return ...] *)
| Running.                                  (* the iteration budget ran out *)

(** The [while open_set:] loop, at most [fuel] iterations.  Next to the
    outcome it gives the closed set as the loop leaves it: the nodes popped,
    latest first. *)
Fixpoint search_loop (pf : AStarPathfinder) (goal_node : Node)
    (snake_body : list (Z * Z)) (fuel : nat)
    (open_set closed_set : list Node) : outcome * list Node :=
  match fuel with
  | O => (Running, closed_set)
  | S fuel' =>
      match heapq.heappop open_set with
      | None => (Returned None, closed_set)
      | Some (current_node, open_set) =>
          let closed_set := current_node :: closed_set in
          if Node_eq current_node goal_node
          then (Returned (Some (_reconstruct_path pf current_node)), closed_set)
          else search_loop pf goal_node snake_body fuel'
                 (expand pf goal_node snake_body closed_set current_node open_set)
                 closed_set
      end
  end.

(** Iterations that always suffice ([search_terminates] below): one per grid
    cell, one for a start outside the grid, one to see the open set empty. *)
Definition search_fuel (pf : AStarPathfinder) : nat :=
  Z.to_nat (grid_cols pf) * Z.to_nat (grid_rows pf) + 2.

Definition start_node_of (pf : AStarPathfinder) (start_pos : Z * Z) : Node :=
  let start_grid := pixel_to_grid pf start_pos in
  Node_init (fst start_grid) (snd start_grid).

Definition goal_node_of (pf : AStarPathfinder) (goal_pos : Z * Z) : Node :=
  let goal_grid := pixel_to_grid pf goal_pos in
  Node_init (fst goal_grid) (snd goal_grid).

(** [find_path] run for at most [fuel] iterations of its loop. *)
Definition find_path_from (pf : AStarPathfinder) (fuel : nat)
    (start_pos goal_pos : Z * Z) (snake_body : list (Z * Z))
    : outcome * list Node :=
  let start_node := start_node_of pf start_pos in
  let goal_node := goal_node_of pf goal_pos in
  search_loop pf goal_node snake_body fuel (heapq.heappush [] start_node) [].

(** [find_path]: [None] is Python's [None], no path. *)
Definition find_path (pf : AStarPathfinder) (start_pos goal_pos : Z * Z)
    (snake_body : list (Z * Z)) : option (list (Z * Z)) :=
  match fst (find_path_from pf (search_fuel pf) start_pos goal_pos snake_body) with
  | Returned path => path
  | Running => None
  end.

Inductive Direction : Type := UP | DOWN | LEFT | RIGHT.

Definition get_next_direction (current_pos target_pos : Z * Z) : Direction :=
  let dx := fst target_pos - fst current_pos in
  let dy := snd target_pos - snd current_pos in
  if 0 <? dx then RIGHT
  else if dx <? 0 then LEFT
  else if 0 <? dy then DOWN
  else if dy <? 0 then UP
  else RIGHT.

Definition find_safe_path_to_tail (pf : AStarPathfinder) (snake_head : Z * Z)
    (snake_body : list (Z * Z)) : option (list (Z * Z)) :=
  if Z.of_nat (length snake_body) <? 2 then None
  else
    let tail_pos := List.last snake_body (0, 0) in
    find_path pf snake_head tail_pos (removelast snake_body).

(** ** SnakeAI *)

Record SnakeAI : Type := { pathfinder : AStarPathfinder }.

(** [SnakeAI.__init__]: the pathfinder with the default cell size 10. *)
Definition SnakeAI_init (grid_width grid_height : Z) : SnakeAI :=
  {| pathfinder := {| cell_size := 10;
                      grid_cols := grid_width / 10;
                      grid_rows := grid_height / 10 |} |}.

(** The position [_make_safe_move] tries for a direction. *)
Definition step_pos (p : Z * Z) (direction : Direction) : Z * Z :=
  match direction with
  | UP => (fst p, snd p - 10)
  | DOWN => (fst p, snd p + 10)
  | LEFT => (fst p - 10, snd p)
  | RIGHT => (fst p + 10, snd p)
  end.

(** The test of the loop body of [_make_safe_move]. *)
Definition move_is_safe (ai : SnakeAI) (snake_head : Z * Z)
    (snake_body : list (Z * Z)) (direction : Direction) : bool :=
  let grid_pos := pixel_to_grid (pathfinder ai) (step_pos snake_head direction) in
  in_bounds (pathfinder ai) grid_pos &&
  is_safe_position (pathfinder ai) (fst grid_pos) (snd grid_pos) snake_body true.

Definition _make_safe_move (ai : SnakeAI) (snake_head : Z * Z)
    (snake_body : list (Z * Z)) : Direction :=
  match find (move_is_safe ai snake_head snake_body) [UP; DOWN; LEFT; RIGHT] with
  | Some direction => direction
  | None => RIGHT
  end.

(** [if path and len(path) > 1]: the second cell of such a path. *)
Definition second_cell (path : option (list (Z * Z))) : option (Z * Z) :=
  match path with
  | Some (_ :: next_pos :: _) => Some next_pos
  | _ => None
  end.

Definition get_next_move (ai : SnakeAI) (snake_head food_pos : Z * Z)
    (snake_body : list (Z * Z)) : Direction :=
  let path := find_path (pathfinder ai) snake_head food_pos snake_body in
  match second_cell path with
  | Some next_pos => get_next_direction snake_head next_pos
  | None =>
      let tail_path := find_safe_path_to_tail (pathfinder ai) snake_head snake_body in
      match second_cell tail_path with
      | Some next_pos => get_next_direction snake_head next_pos
      | None => _make_safe_move ai snake_head snake_body
      end
  end.

(** ** The game drivers *)

Definition window_x : Z := 720.
Definition window_y : Z := 480.

Definition Direction_eqb (a b : Direction) : bool :=
  match a, b with
  | UP, UP | DOWN, DOWN | LEFT, LEFT | RIGHT, RIGHT => true
  | _, _ => false
  end.

(** [r] can be the result of [random.randrange(start, stop)]. *)
Definition randrange (start stop r : Z) : bool := (start <=? r) && (r <? stop).

(** The new fruit position, from the two numbers drawn:
    [[randrange(1, window_x // 10) * 10, randrange(1, window_y // 10) * 10]]. *)
Definition new_fruit_position (rx ry : Z) : Z * Z := (rx * 10, ry * 10).

(** The two draws are ones [random.randrange] can make for a fruit. *)
Definition fruit_draw (rx ry : Z) : bool :=
  randrange 1 (window_x / 10) rx && randrange 1 (window_y / 10) ry.

Definition move_pos (p : Z * Z) (direction : Direction) : Z * Z :=
  match direction with
  | UP => (fst p, snd p - 10)
  | DOWN => (fst p, snd p + 10)
  | LEFT => (fst p - 10, snd p)
  | RIGHT => (fst p + 10, snd p)
  end.

(** [snake_ai.py]: [class SnakeGame], without the window and the drawing. *)
Module SnakeGame.

Inductive GameMode : Type := MANUAL_MODE | AI_MODE.

Record t : Type :=
  { snake_ai : SnakeAI;
    snake_position : Z * Z;
    snake_body : list (Z * Z);
    fruit_position : Z * Z;
    fruit_spawn : bool;
    direction : Direction;
    change_to : Direction;
    score : Z;
    game_mode : GameMode }.

(** [reset_game], on a fresh game; [rx], [ry] are the two draws. *)
Definition reset_game (mode : GameMode) (rx ry : Z) : t :=
  {| snake_ai := SnakeAI_init window_x window_y;
     snake_position := (100, 50);
     snake_body := [(100, 50); (90, 50); (80, 50); (70, 50)];
     fruit_position := new_fruit_position rx ry;
     fruit_spawn := true;
     direction := RIGHT;
     change_to := RIGHT;
     score := 0;
     game_mode := mode |}.

(** The [if]/[elif] chain at the end of [update_direction]. *)
Definition validate (change_to direction : Direction) : Direction :=
  if Direction_eqb change_to UP && negb (Direction_eqb direction DOWN) then UP
  else if Direction_eqb change_to DOWN && negb (Direction_eqb direction UP) then DOWN
  else if Direction_eqb change_to LEFT && negb (Direction_eqb direction RIGHT) then LEFT
  else if Direction_eqb change_to RIGHT && negb (Direction_eqb direction LEFT) then RIGHT
  else direction.

(** The direction requested in this tick: the AI's move in AI mode, the
    last key otherwise. *)
Definition requested (g : t) : Direction :=
  match game_mode g with
  | AI_MODE => get_next_move (snake_ai g) (snake_position g) (fruit_position g)
                             (snake_body g)
  | MANUAL_MODE => change_to g
  end.

Definition update_direction (g : t) : t :=
  let change_to := requested g in
  {| snake_ai := snake_ai g;
     snake_position := snake_position g;
     snake_body := snake_body g;
     fruit_position := fruit_position g;
     fruit_spawn := fruit_spawn g;
     direction := validate change_to (direction g);
     change_to := change_to;
     score := score g;
     game_mode := game_mode g |}.

Definition move_snake (g : t) : t :=
  {| snake_ai := snake_ai g;
     snake_position := move_pos (snake_position g) (direction g);
     snake_body := snake_body g;
     fruit_position := fruit_position g;
     fruit_spawn := fruit_spawn g;
     direction := direction g;
     change_to := change_to g;
     score := score g;
     game_mode := game_mode g |}.

Definition check_food_collision (g : t) (rx ry : Z) : t :=
  let body := snake_position g :: snake_body g in
  let eaten := cell_eqb (snake_position g) (fruit_position g) in
  let fruit_spawn := if eaten then false else fruit_spawn g in
  {| snake_ai := snake_ai g;
     snake_position := snake_position g;
     snake_body := if eaten then body else removelast body;
     fruit_position :=
       if negb fruit_spawn then new_fruit_position rx ry else fruit_position g;
     fruit_spawn := true;
     direction := direction g;
     change_to := change_to g;
     score := if eaten then score g + 10 else score g;
     game_mode := game_mode g |}.

Definition check_collisions (g : t) : bool :=
  let p := snake_position g in
  (fst p <? 0) || (window_x - 10 <? fst p) ||
  (snd p <? 0) || (window_y - 10 <? snd p) ||
  existsb (cell_eqb p) (tl (snake_body g)).

(** One pass of the game logic of [run]: the new state and whether the game
    is over. *)
Definition tick (g : t) (rx ry : Z) : t * bool :=
  let g := check_food_collision (move_snake (update_direction g)) rx ry in
  (g, check_collisions g).

End SnakeGame.

(** [Snake.py]: the body of the main loop, without the window and the
    drawing. *)
Module SnakePy.

Record t : Type :=
  { snake_position : Z * Z;
    snake_body : list (Z * Z);
    fruit_position : Z * Z;
    fruit_spawn : bool;
    direction : Direction;
    change_to : Direction;
    score : Z }.

(** The four [if] statements, one after the other. *)
Definition validate (change_to direction : Direction) : Direction :=
  let direction :=
    if Direction_eqb change_to UP && negb (Direction_eqb direction DOWN)
    then UP else direction in
  let direction :=
    if Direction_eqb change_to DOWN && negb (Direction_eqb direction UP)
    then DOWN else direction in
  let direction :=
    if Direction_eqb change_to LEFT && negb (Direction_eqb direction RIGHT)
    then LEFT else direction in
  let direction :=
    if Direction_eqb change_to RIGHT && negb (Direction_eqb direction LEFT)
    then RIGHT else direction in
  direction.

Definition game_over (g : t) : bool :=
  let p := snake_position g in
  (fst p <? 0) || (window_x - 10 <? fst p) ||
  (snd p <? 0) || (window_y - 10 <? snd p) ||
  existsb (cell_eqb p) (tl (snake_body g)).

(** One iteration, from the direction check on: the new state and whether
    [game_over()] is called. *)
Definition tick (g : t) (rx ry : Z) : t * bool :=
  let direction := validate (change_to g) (direction g) in
  let snake_position := move_pos (snake_position g) direction in
  let body := snake_position :: snake_body g in
  let eaten := cell_eqb snake_position (fruit_position g) in
  let fruit_spawn := if eaten then false else fruit_spawn g in
  let g' :=
    {| snake_position := snake_position;
       snake_body := if eaten then body else removelast body;
       fruit_position :=
         if negb fruit_spawn then new_fruit_position rx ry else fruit_position g;
       fruit_spawn := true;
       direction := direction;
       change_to := change_to g;
       score := if eaten then score g + 10 else score g |} in
  (g', game_over g').

End SnakePy.

(** The direction a snake cannot turn to. *)
Definition opposite (d : Direction) : Direction :=
  match d with
  | UP => DOWN | DOWN => UP | LEFT => RIGHT | RIGHT => LEFT
  end.

(** * Invariants

    The predicates the proofs below are about. *)

(** ** The heap order *)

(** [heap[(i - 1) >> 1] <= heap[i]] in [f_cost], for every position but the
    root. *)
Definition is_heap (heap : list Node) : Prop :=
  forall i : nat, (0 < i < length heap)%nat ->
    f_cost (heap !!! ((i - 1) / 2)%nat) <= f_cost (heap !!! i).

(** The hole of [_siftdown] at [pos]: the order holds everywhere else, and
    the children of the hole are above both [newitem] and the hole's
    parent. *)
Record siftdown_inv (heap : list Node) (pos : nat) (newitem : Node) : Prop :=
  { sd_pos : (pos < length heap)%nat;
    sd_others : forall i : nat, (0 < i < length heap)%nat -> i <> pos ->
      f_cost (heap !!! ((i - 1) / 2)%nat) <= f_cost (heap !!! i);
    sd_children : forall c : nat, (0 < c < length heap)%nat -> ((c - 1) / 2)%nat = pos ->
      f_cost newitem <= f_cost (heap !!! c);
    sd_grand : forall c : nat, (0 < c < length heap)%nat -> ((c - 1) / 2)%nat = pos ->
      (0 < pos)%nat ->
      f_cost (heap !!! ((pos - 1) / 2)%nat) <= f_cost (heap !!! c) }.

(** ** The search *)

(** The node [visit_neighbor] pushes for a neighbour it sees for the first
    time. *)
Definition discovered (goal_node current_node neighbor : Node) : Node :=
  let g := g_cost current_node + 1 in
  let h := manhattan_distance neighbor goal_node in
  mkNode (node_x neighbor) (node_y neighbor) g h (g + h) (Some current_node).

(** The nodes a search can hold: the start node, and the node pushed for an
    in-bounds, safe neighbour of a node it holds. *)
Inductive reached (pf : AStarPathfinder) (goal_node : Node)
    (snake_body : list (Z * Z)) (start_node : Node) : Node -> Prop :=
| reached_start : reached pf goal_node snake_body start_node start_node
| reached_step current_node neighbor :
    reached pf goal_node snake_body start_node current_node ->
    In neighbor (get_neighbors pf current_node) ->
    is_safe_position pf (node_x neighbor) (node_y neighbor) snake_body true = true ->
    reached pf goal_node snake_body start_node
            (discovered goal_node current_node neighbor).

(** What every iteration of the loop of [find_path] keeps: the open set is a
    heap, it and the closed set hold reached nodes only, and no cell is in
    them twice. *)
Record search_inv (pf : AStarPathfinder) (goal_node : Node)
    (snake_body : list (Z * Z)) (start_node : Node)
    (open_set closed_set : list Node) : Prop :=
  { inv_heap : is_heap open_set;
    inv_reached : forall n, In n (open_set ++ closed_set) ->
      reached pf goal_node snake_body start_node n;
    inv_nodup : List.NoDup (map cell_of (open_set ++ closed_set)) }.

(** The cells of the grid, column by column. *)
Definition all_cells (pf : AStarPathfinder) : list (Z * Z) :=
  list_prod (map Z.of_nat (seq 0 (Z.to_nat (grid_cols pf))))
            (map Z.of_nat (seq 0 (Z.to_nat (grid_rows pf)))).

(** The cells of the path that ends in [n], start first. *)
Definition chain_cells (n : Node) : list (Z * Z) :=
  rev (map cell_of (parent_chain n)).

(** [b] is the cell next to [a] in one of the four directions. *)
Definition grid_step (a b : Z * Z) : Prop :=
  exists d, In d directions /\ b = (fst a + fst d, snd a + snd d).

(** ** The search on a grid without obstacles *)

(** What the loop keeps once the start node is closed, when no cell but the
    start cell is an obstacle.  With [D] the Manhattan distance from start to
    goal: closed nodes lie on shortest paths ([g + h = D]) and are not the
    goal; open nodes carry their own [f = g + h >= D] and hang below a closed
    node; and every step towards the goal from a closed node of largest
    [g_cost] is in the open set with [f_cost = D]. *)
Record frontier_inv (pf : AStarPathfinder) (goal_node : Node)
    (snake_body : list (Z * Z)) (start_node : Node)
    (open_set closed_set : list Node) : Prop :=
  { fi_inv : search_inv pf goal_node snake_body start_node open_set closed_set;
    fi_start : In start_node closed_set;
    fi_closed : forall c, In c closed_set ->
      g_cost c + manhattan_distance c goal_node
        = manhattan_distance start_node goal_node /\
      Node_eq c goal_node = false;
    fi_open : forall n, In n open_set ->
      f_cost n = g_cost n + manhattan_distance n goal_node /\
      manhattan_distance start_node goal_node <= f_cost n /\
      exists p, In p closed_set /\ g_cost n = g_cost p + 1;
    fi_max : forall c, In c closed_set ->
      (forall c', In c' closed_set -> g_cost c' <= g_cost c) ->
      forall nb, In nb (get_neighbors pf c) ->
        manhattan_distance nb goal_node = manhattan_distance c goal_node - 1 ->
        exists n, In n open_set /\ cell_of n = cell_of nb /\
                  f_cost n = manhattan_distance start_node goal_node }.

(** The loop invariant of the search without obstacles: the first iteration
    has not run yet, or [frontier_inv] holds. *)
Definition optimal_inv (pf : AStarPathfinder) (goal_node : Node)
    (snake_body : list (Z * Z)) (start_node : Node)
    (open_set closed_set : list Node) : Prop :=
  (open_set = [start_node] /\ closed_set = []) \/
  frontier_inv pf goal_node snake_body start_node open_set closed_set.

(** ** The reference configuration *)

(** The controller of the game: window 720 x 480, cells of 10 pixels, so a
    grid of 72 x 48 cells. *)
Definition game_ai : SnakeAI := SnakeAI_init window_x window_y.

(** The snake as [reset_game] lays it out. *)
Definition initial_body : list (Z * Z) := [(100, 50); (90, 50); (80, 50); (70, 50)].

(** The Manhattan distance between two cells. *)
Definition cell_distance (a b : Z * Z) : Z :=
  Z.abs (fst a - fst b) + Z.abs (snd a - snd b).

(** The cell a move in [direction] leads to, and whether the last-resort scan
    may take it: inside the grid and not an obstacle (tail ignored). *)
Definition target_cell (ai : SnakeAI) (snake_head : Z * Z) (direction : Direction)
    : Z * Z :=
  pixel_to_grid (pathfinder ai) (step_pos snake_head direction).

Definition free_move (ai : SnakeAI) (snake_head : Z * Z)
    (snake_body : list (Z * Z)) (direction : Direction) : Prop :=
  in_bounds (pathfinder ai) (target_cell ai snake_head direction) = true /\
  ~ In (target_cell ai snake_head direction)
       (snake_grid_positions (pathfinder ai) snake_body true).

(** ** Walks on the grid *)

(** A walk the snake could take: one grid step at a time, every cell after
    the first inside the grid and outside the obstacle set (tail ignored). *)
Definition free_walk (pf : AStarPathfinder) (snake_body cells : list (Z * Z)) : Prop :=
  (forall i a b, nth_error cells i = Some a -> nth_error cells (S i) = Some b ->
     grid_step a b) /\
  (forall i a, (1 <= i)%nat -> nth_error cells i = Some a ->
     in_bounds pf a = true /\
     ~ In a (snake_grid_positions pf snake_body true)).

(** [cells] leads from cell [a] to cell [b]. *)
Definition connects (cells : list (Z * Z)) (a b : Z * Z) : Prop :=
  nth_error cells 0 = Some a /\ nth_error cells (length cells - 1) = Some b.

(** What the loop keeps about the cells it has seen: the start cell is among
    them, no closed node is on the goal cell, and every safe neighbour of a
    closed node has been seen. *)
Record closure_inv (pf : AStarPathfinder) (goal_node : Node)
    (snake_body : list (Z * Z)) (start_node : Node)
    (open_set closed_set : list Node) : Prop :=
  { ci_inv : search_inv pf goal_node snake_body start_node open_set closed_set;
    ci_start : In (cell_of start_node) (map cell_of (open_set ++ closed_set));
    ci_nongoal : forall c, In c closed_set -> Node_eq c goal_node = false;
    ci_closed : forall c nb, In c closed_set -> In nb (get_neighbors pf c) ->
      is_safe_position pf (node_x nb) (node_y nb) snake_body true = true ->
      In (cell_of nb) (map cell_of (open_set ++ closed_set)) }.

(** ** Positions on the grid *)

(** A pixel position on a corner of a 10-pixel cell, as every position of
    the game is. *)
Definition aligned (p : Z * Z) : Prop := fst p mod 10 = 0 /\ snd p mod 10 = 0.

(** ** The main loop of [snake_ai.py] *)

(** [SnakeGame.run] and [SnakeGame.handle_events], without the window and the
    drawing.  The events of a frame are inputs; the random numbers are the
    pairs of a stream [rng], taken in order: one pair for each fruit that
    [reset_game] or [check_food_collision] places. *)
Module SnakeGameRun.

Inductive Key : Type := K_SPACE | K_r | K_UP | K_DOWN | K_LEFT | K_RIGHT | K_other.

Inductive Event : Type := QUIT | KEYDOWN (key : Key) | OtherEvent.

(** [reset_game] on a game that exists: the mode and the controller stay. *)
Definition reset_game (g : SnakeGame.t) (draw : Z * Z) : SnakeGame.t :=
  {| SnakeGame.snake_ai := SnakeGame.snake_ai g;
     SnakeGame.snake_position := (100, 50);
     SnakeGame.snake_body := [(100, 50); (90, 50); (80, 50); (70, 50)];
     SnakeGame.fruit_position := new_fruit_position (fst draw) (snd draw);
     SnakeGame.fruit_spawn := true;
     SnakeGame.direction := RIGHT;
     SnakeGame.change_to := RIGHT;
     SnakeGame.score := 0;
     SnakeGame.game_mode := SnakeGame.game_mode g |}.

Definition set_game_mode (g : SnakeGame.t) (mode : SnakeGame.GameMode) : SnakeGame.t :=
  {| SnakeGame.snake_ai := SnakeGame.snake_ai g;
     SnakeGame.snake_position := SnakeGame.snake_position g;
     SnakeGame.snake_body := SnakeGame.snake_body g;
     SnakeGame.fruit_position := SnakeGame.fruit_position g;
     SnakeGame.fruit_spawn := SnakeGame.fruit_spawn g;
     SnakeGame.direction := SnakeGame.direction g;
     SnakeGame.change_to := SnakeGame.change_to g;
     SnakeGame.score := SnakeGame.score g;
     SnakeGame.game_mode := mode |}.

Definition set_change_to (g : SnakeGame.t) (change_to : Direction) : SnakeGame.t :=
  {| SnakeGame.snake_ai := SnakeGame.snake_ai g;
     SnakeGame.snake_position := SnakeGame.snake_position g;
     SnakeGame.snake_body := SnakeGame.snake_body g;
     SnakeGame.fruit_position := SnakeGame.fruit_position g;
     SnakeGame.fruit_spawn := SnakeGame.fruit_spawn g;
     SnakeGame.direction := SnakeGame.direction g;
     SnakeGame.change_to := change_to;
     SnakeGame.score := SnakeGame.score g;
     SnakeGame.game_mode := SnakeGame.game_mode g |}.

(** What one [KEYDOWN] event does in [handle_events]; [n] counts the pairs
    of random numbers drawn so far. *)
Definition handle_key (rng : nat -> Z * Z) (g : SnakeGame.t) (n : nat) (key : Key)
    : SnakeGame.t * nat :=
  match key with
  | K_SPACE =>
      (set_game_mode g
         match SnakeGame.game_mode g with
         | SnakeGame.MANUAL_MODE => SnakeGame.AI_MODE
         | SnakeGame.AI_MODE => SnakeGame.MANUAL_MODE
         end, n)
  | K_r => (reset_game g (rng n), S n)
  | _ =>
      match SnakeGame.game_mode g with
      | SnakeGame.MANUAL_MODE =>
          match key with
          | K_UP => (set_change_to g UP, n)
          | K_DOWN => (set_change_to g DOWN, n)
          | K_LEFT => (set_change_to g LEFT, n)
          | K_RIGHT => (set_change_to g RIGHT, n)
          | _ => (g, n)
          end
      | SnakeGame.AI_MODE => (g, n)
      end
  end.

(** [handle_events]: the game, the count of draws, and the value returned
    ([false] at the first [QUIT] event, the later events unread). *)
Fixpoint handle_events (rng : nat -> Z * Z) (g : SnakeGame.t) (n : nat)
    (events : list Event) : SnakeGame.t * nat * bool :=
  match events with
  | [] => (g, n, true)
  | QUIT :: _ => (g, n, false)
  | KEYDOWN key :: events =>
      let '(g, n) := handle_key rng g n key in handle_events rng g n events
  | OtherEvent :: events => handle_events rng g n events
  end.

(** The variables of [run]. *)
Record state : Type :=
  { game : SnakeGame.t;
    game_over_state : bool;
    draws : nat;
    running : bool }.

(** The [for event in pygame.event.get()] loop of the game-over screen. *)
Fixpoint wait_for_restart (rng : nat -> Z * Z) (st : state) (events : list Event)
    : state :=
  match events with
  | [] => st
  | KEYDOWN K_r :: events =>
      wait_for_restart rng
        {| game := reset_game (game st) (rng (draws st));
           game_over_state := false;
           draws := S (draws st);
           running := running st |} events
  | QUIT :: events =>
      wait_for_restart rng
        {| game := game st;
           game_over_state := game_over_state st;
           draws := draws st;
           running := false |} events
  | _ :: events => wait_for_restart rng st events
  end.

(** One pass of [while running:]; [events] is what [handle_events] reads,
    [later_events] what the game-over screen reads after it. *)
Definition frame (rng : nat -> Z * Z) (st : state) (events later_events : list Event)
    : state :=
  let '(g, n, continue) := handle_events rng (game st) (draws st) events in
  if negb continue
  then {| game := g; game_over_state := game_over_state st; draws := n;
          running := false |}
  else if negb (game_over_state st) then
    let moved := SnakeGame.move_snake (SnakeGame.update_direction g) in
    let eaten := cell_eqb (SnakeGame.snake_position moved) (SnakeGame.fruit_position moved) in
    let spawned := eaten || negb (SnakeGame.fruit_spawn moved) in
    let '(g, collided) := SnakeGame.tick g (fst (rng n)) (snd (rng n)) in
    {| game := g; game_over_state := collided;
       draws := if spawned then S n else n; running := true |}
  else
    wait_for_restart rng
      {| game := g; game_over_state := true; draws := n; running := true |}
      later_events.

(** [__init__] with the mode [run] starts in (manual, or AI for
    [run_ai_demo]). *)
Definition init (rng : nat -> Z * Z) (mode : SnakeGame.GameMode) : state :=
  {| game := SnakeGame.reset_game mode (fst (rng 0%nat)) (snd (rng 0%nat));
     game_over_state := false;
     draws := 1;
     running := true |}.

(** [run] over the frames whose events are given, as long as it is
    running. *)
Fixpoint run (rng : nat -> Z * Z) (st : state)
    (frames : list (list Event * list Event)) : state :=
  match frames with
  | [] => st
  | (events, later_events) :: frames =>
      if running st then run rng (frame rng st events later_events) frames else st
  end.

End SnakeGameRun.

(** ** What the game keeps *)

(** Two positions one move apart. *)
Definition one_move_apart (a b : Z * Z) : Prop :=
  (Z.abs (fst a - fst b) = 10 /\ snd a = snd b) \/
  (fst a = fst b /\ Z.abs (snd a - snd b) = 10).

(** What every frame keeps of the game: the head is the first segment, the
    snake came to it from its second segment in the current direction, the
    body has at least 4 segments, each one move from the next, all on cell
    corners like the fruit, a fruit is in place, and the score is 10 for each
    segment gained. *)
Record game_inv (g : SnakeGame.t) : Prop :=
  { gi_ai : SnakeGame.snake_ai g = game_ai;
    gi_head : exists neck rest,
      SnakeGame.snake_body g = SnakeGame.snake_position g :: neck :: rest /\
      move_pos neck (SnakeGame.direction g) = SnakeGame.snake_position g /\
      (2 <= length rest)%nat;
    gi_chain : forall i a b,
      nth_error (SnakeGame.snake_body g) i = Some a ->
      nth_error (SnakeGame.snake_body g) (S i) = Some b -> one_move_apart a b;
    gi_aligned : Forall aligned (SnakeGame.snake_body g);
    gi_fruit : aligned (SnakeGame.fruit_position g);
    gi_spawn : SnakeGame.fruit_spawn g = true;
    gi_score :
      SnakeGame.score g = 10 * (Z.of_nat (length (SnakeGame.snake_body g)) - 4) }.

(** What holds as long as the game is not over: the head is inside the
    window and no two segments are on one position. *)
Definition alive (g : SnakeGame.t) : Prop :=
  (0 <= fst (SnakeGame.snake_position g) <= window_x - 10 /\
   0 <= snd (SnakeGame.snake_position g) <= window_y - 10) /\
  List.NoDup (SnakeGame.snake_body g).

(** The state of [Snake.py] that a state of [snake_ai.py] stands for. *)
Definition to_SnakePy (g : SnakeGame.t) : SnakePy.t :=
  {| SnakePy.snake_position := SnakeGame.snake_position g;
     SnakePy.snake_body := SnakeGame.snake_body g;
     SnakePy.fruit_position := SnakeGame.fruit_position g;
     SnakePy.fruit_spawn := SnakeGame.fruit_spawn g;
     SnakePy.direction := SnakeGame.direction g;
     SnakePy.change_to := SnakeGame.change_to g;
     SnakePy.score := SnakeGame.score g |}.

(** ** Parent links *)

(** What the loop keeps of the parent links: the parent of every node it
    holds is a closed node. *)
Record ancestry_inv (pf : AStarPathfinder) (goal_node : Node)
    (snake_body : list (Z * Z)) (start_node : Node)
    (open_set closed_set : list Node) : Prop :=
  { an_inv : search_inv pf goal_node snake_body start_node open_set closed_set;
    an_parent : forall n p, In n (open_set ++ closed_set) -> parent n = Some p ->
      In p closed_set }.

(** [free_walk], decided. *)
Definition grid_stepb (a b : Z * Z) : bool :=
  existsb (fun d => cell_eqb b (fst a + fst d, snd a + snd d)) directions.

Fixpoint free_walkb (pf : AStarPathfinder) (snake_body cells : list (Z * Z)) : bool :=
  match cells with
  | [] => true
  | a :: rest =>
      match rest with
      | [] => true
      | b :: _ =>
          grid_stepb a b && in_bounds pf b &&
          is_safe_position pf (fst b) (snd b) snake_body true
      end && free_walkb pf snake_body rest
  end.

(** * Proofs *)

(** ** Nodes *)

Lemma Node_eq_cell a b : Node_eq a b = true <-> cell_of a = cell_of b.
Proof.
  unfold Node_eq, cell_of. rewrite andb_true_iff, !Z.eqb_eq.
  split; [intros [-> ->]; reflexivity | intros [= -> ->]; auto].
Qed.

Lemma cell_eqb_eq a b : cell_eqb a b = true <-> a = b.
Proof.
  destruct a, b. unfold cell_eqb; simpl. rewrite andb_true_iff, !Z.eqb_eq.
  split; [intros [-> ->]; reflexivity | intros [= -> ->]; auto].
Qed.

(** ** The heap *)

Section heap_facts.
Local Open Scope nat_scope.
Import heapq.

(** Exchanging the values at two positions gives a permutation. *)
Lemma insert_lookup_perm (l : list Node) i x :
  i < length l -> (l !!! i) :: <[i := x]> l ≡ₚ x :: l.
Proof.
  revert i. induction l as [|a l IH]; intros [|i] Hi; simpl in *; try lia.
  - apply perm_swap.
  - change ((a :: l) !!! S i) with (l !!! i).
    rewrite (perm_swap a (l !!! i)), (perm_swap a x).
    apply perm_skip, IH. lia.
Qed.

Lemma insert_swap_perm (l : list Node) i j x :
  i < length l -> j < length l -> i <> j ->
  <[i := x]> (<[j := l !!! i]> l) ≡ₚ <[j := x]> l.
Proof.
  revert i j. induction l as [|a l IH]; intros [|i] [|j] Hi Hj Hne;
    simpl in *; try lia.
  - pose proof (insert_lookup_perm (<[j := a]> l) j x) as H.
    rewrite length_insert, list_lookup_total_insert_eq, list_insert_insert_eq in H by lia.
    symmetry. apply H. lia.
  - change ((a :: l) !!! S i) with (l !!! i).
    apply insert_lookup_perm. lia.
  - change ((a :: l) !!! S i) with (l !!! i).
    apply perm_skip, IH; lia.
Qed.

(** The iteration budget of the two loops never decides: any two budgets
    that cover the distance still to go give the same result. *)
Lemma siftdown_fuel_irrelevant fuel1 fuel2 heap startpos pos newitem :
  pos <= fuel1 -> pos <= fuel2 ->
  _siftdown_loop fuel1 heap startpos pos newitem
  = _siftdown_loop fuel2 heap startpos pos newitem.
Proof.
  revert fuel2 heap pos.
  induction fuel1 as [|fuel1 IH]; intros [|fuel2] heap pos H1 H2;
    cbn [_siftdown_loop]; try reflexivity.
  - destruct (startpos <? pos) eqn:E; [apply Nat.ltb_lt in E; lia | reflexivity].
  - destruct (startpos <? pos) eqn:E; [apply Nat.ltb_lt in E; lia | reflexivity].
  - destruct (startpos <? pos) eqn:E; [apply Nat.ltb_lt in E | reflexivity].
    destruct (Node_lt _ _); [|reflexivity].
    assert ((pos - 1) / 2 <= pos - 1) by (apply Nat.Div0.div_le_upper_bound; lia).
    apply IH; lia.
Qed.

Lemma siftup_fuel_irrelevant fuel1 fuel2 heap endpos pos :
  endpos <= fuel1 + pos -> endpos <= fuel2 + pos ->
  _siftup_loop fuel1 heap endpos pos = _siftup_loop fuel2 heap endpos pos.
Proof.
  revert fuel2 heap pos.
  induction fuel1 as [|fuel1 IH]; intros [|fuel2] heap pos H1 H2;
    cbn [_siftup_loop]; try reflexivity.
  - destruct (2 * pos + 1 <? endpos) eqn:E; [apply Nat.ltb_lt in E; lia | reflexivity].
  - destruct (2 * pos + 1 <? endpos) eqn:E; [apply Nat.ltb_lt in E; lia | reflexivity].
  - destruct (2 * pos + 1 <? endpos) eqn:E; [apply Nat.ltb_lt in E | reflexivity].
    destruct (_ && _); apply IH; lia.
Qed.

(** *** The heap operations permute their input *)

Lemma siftdown_loop_perm fuel heap startpos pos newitem :
  pos < length heap ->
  _siftdown_loop fuel heap startpos pos newitem ≡ₚ <[pos := newitem]> heap.
Proof.
  revert heap pos. induction fuel as [|fuel IH]; intros heap pos Hpos;
    cbn [_siftdown_loop]; [reflexivity|].
  destruct (startpos <? pos) eqn:E; [apply Nat.ltb_lt in E | reflexivity].
  destruct (Node_lt _ _); [|reflexivity].
  assert ((pos - 1) / 2 <= pos - 1) by (apply Nat.Div0.div_le_upper_bound; lia).
  rewrite IH by (rewrite length_insert; lia).
  apply insert_swap_perm; lia.
Qed.

Lemma siftdown_perm heap startpos pos :
  pos < length heap -> _siftdown heap startpos pos ≡ₚ heap.
Proof.
  intros Hpos. unfold _siftdown. rewrite siftdown_loop_perm by done.
  rewrite list_insert_id; [done|]. by apply list_lookup_lookup_total_lt.
Qed.

Lemma siftup_loop_perm fuel heap endpos pos newitem :
  endpos = length heap -> pos < length heap ->
  let r := _siftup_loop fuel heap endpos pos in
  r.2 < length r.1 /\ <[r.2 := newitem]> r.1 ≡ₚ <[pos := newitem]> heap.
Proof.
  revert heap pos. induction fuel as [|fuel IH]; intros heap pos -> Hpos;
    cbn [_siftup_loop]; [done|].
  destruct (2 * pos + 1 <? length heap) eqn:E; [apply Nat.ltb_lt in E | done].
  set (c := if _ && _ then _ else _).
  assert (Hc : pos < c < length heap).
  { subst c. destruct (2 * pos + 1 + 1 <? length heap) eqn:E2; simpl.
    - apply Nat.ltb_lt in E2. destruct (negb _); lia.
    - lia. }
  destruct (IH (<[pos := heap !!! c]> heap) c) as [Hlt Hperm];
    rewrite ?length_insert; try lia.
  split; [done|]. rewrite Hperm. apply insert_swap_perm; lia.
Qed.

Lemma siftup_perm heap pos :
  pos < length heap -> _siftup heap pos ≡ₚ heap.
Proof.
  intros Hpos. unfold _siftup.
  pose proof (siftup_loop_perm (length heap) heap (length heap) pos
                (heap !!! pos) eq_refl Hpos) as [Hlt Hperm].
  destruct (_siftup_loop _ _ _ _) as [heap' pos']; simpl in *.
  rewrite siftdown_perm by (rewrite length_insert; lia).
  rewrite Hperm, list_insert_id; [done|]. by apply list_lookup_lookup_total_lt.
Qed.

Lemma heappush_perm heap item : heappush heap item ≡ₚ item :: heap.
Proof.
  unfold heappush. rewrite siftdown_perm.
  - by rewrite Permutation_app_comm.
  - rewrite length_app; simpl; lia.
Qed.

Lemma heappop_None heap : heappop heap = None <-> heap = [].
Proof.
  destruct heap as [|a heap]; [done|]. unfold heappop.
  destruct (removelast (a :: heap)); done.
Qed.

Lemma heappop_perm heap item heap' :
  heappop heap = Some (item, heap') -> heap ≡ₚ item :: heap'.
Proof.
  destruct heap as [|a heap]; [done|]. unfold heappop.
  assert (Hsplit : a :: heap = removelast (a :: heap) ++ [List.last (a :: heap) inhabitant])
    by (apply app_removelast_last; done).
  set (lastelt := List.last (a :: heap) inhabitant) in *.
  destruct (removelast (a :: heap)) as [|r t] eqn:Er.
  - intros [= <- <-]. by rewrite Hsplit.
  - intros [= <- <-]. rewrite Hsplit at 1.
    rewrite siftup_perm by (simpl; lia).
    change (r :: t ++ [lastelt] ≡ₚ r :: lastelt :: t).
    apply perm_skip. symmetry. apply Permutation_cons_append.
Qed.

(** *** The heap order *)

Local Ltac divlia := zify; Z.div_mod_to_equations; lia.

Lemma parent_lt i : 0 < i -> (i - 1) / 2 < i.
Proof. divlia. Qed.

Lemma parent_child c pos :
  0 < c -> ((c - 1) / 2 = pos <-> c = 2 * pos + 1 \/ c = 2 * pos + 2).
Proof. divlia. Qed.

Lemma is_heap_root heap i :
  is_heap heap -> i < length heap ->
  (f_cost (heap !!! 0%nat) <= f_cost (heap !!! i))%Z.
Proof.
  intros Hheap. induction (lt_wf i) as [i _ IH]. intros Hi.
  destruct (decide (i = 0)) as [->|Hne]; [reflexivity|].
  pose proof (parent_lt i ltac:(lia)).
  etransitivity; [apply IH | apply Hheap]; lia.
Qed.

Lemma is_heap_min heap item :
  is_heap heap -> In item heap ->
  (f_cost (heap !!! 0%nat) <= f_cost item)%Z.
Proof.
  intros Hheap [i Hi]%list_elem_of_In%list_elem_of_lookup.
  pose proof (lookup_lt_Some _ _ _ Hi).
  rewrite <- (list_lookup_total_correct _ _ _ Hi). by apply is_heap_root.
Qed.

Lemma siftdown_exit_heap heap pos newitem :
  siftdown_inv heap pos newitem ->
  (0 < pos -> (f_cost (heap !!! ((pos - 1) / 2)%nat) <= f_cost newitem)%Z) ->
  is_heap (<[pos := newitem]> heap).
Proof.
  intros [Hpos Hoth Hch _] Hexit i. rewrite length_insert. intros Hi.
  pose proof (parent_lt i ltac:(lia)).
  destruct (decide (i = pos)) as [->|Hne].
  - rewrite list_lookup_total_insert_eq, list_lookup_total_insert_ne by lia.
    apply Hexit. lia.
  - rewrite (list_lookup_total_insert_ne _ _ i) by lia.
    destruct (decide ((i - 1) / 2 = pos)) as [Hp|Hp].
    + rewrite Hp, list_lookup_total_insert_eq by lia. by apply Hch.
    + rewrite list_lookup_total_insert_ne by lia. by apply Hoth.
Qed.

Lemma siftdown_loop_heap fuel heap pos newitem :
  pos <= fuel -> siftdown_inv heap pos newitem ->
  is_heap (_siftdown_loop fuel heap 0 pos newitem).
Proof.
  revert heap pos. induction fuel as [|fuel IH]; intros heap pos Hfuel Hinv;
    cbn [_siftdown_loop].
  { apply siftdown_exit_heap; [done | lia]. }
  destruct (0 <? pos) eqn:E; [apply Nat.ltb_lt in E|].
  2:{ apply Nat.ltb_ge in E. apply siftdown_exit_heap; [done | lia]. }
  unfold Node_lt. destruct (Z.ltb_spec (f_cost newitem) (f_cost (heap !!! ((pos - 1) / 2)%nat))) as [Hlt|Hge].
  2:{ apply siftdown_exit_heap; [done | lia]. }
  pose proof (parent_lt pos E) as Hpar.
  destruct Hinv as [Hpos Hoth Hch Hgr].
  apply IH; [lia|]. set (q := (pos - 1) / 2) in *.
  split; rewrite ?length_insert.
  - lia.
  - intros i Hi Hne. pose proof (parent_lt i ltac:(lia)).
    destruct (decide (i = pos)) as [->|Hip].
    + rewrite list_lookup_total_insert_eq, list_lookup_total_insert_ne by lia. fold q. lia.
    + rewrite (list_lookup_total_insert_ne _ _ i) by lia.
      destruct (decide ((i - 1) / 2 = pos)) as [Hp|Hp].
      * rewrite Hp, list_lookup_total_insert_eq by lia. apply Hgr; [lia | done | lia].
      * rewrite list_lookup_total_insert_ne by lia. apply Hoth; lia.
  - intros c Hc Hcq.
    destruct (decide (c = pos)) as [->|Hcp].
    + rewrite list_lookup_total_insert_eq by lia. lia.
    + rewrite list_lookup_total_insert_ne by lia.
      pose proof (Hoth c Hc Hcp) as Hc'. rewrite Hcq in Hc'. lia.
  - intros c Hc Hcq Hq. pose proof (parent_lt q Hq).
    rewrite (list_lookup_total_insert_ne _ _ ((q - 1) / 2)) by lia.
    pose proof (Hoth q ltac:(lia) ltac:(lia)) as Hqq.
    destruct (decide (c = pos)) as [->|Hcp].
    + rewrite list_lookup_total_insert_eq by lia. lia.
    + rewrite list_lookup_total_insert_ne by lia.
      pose proof (Hoth c Hc Hcp) as Hc'. rewrite Hcq in Hc'. lia.
Qed.

Lemma siftdown_heap_at heap pos newitem :
  siftdown_inv heap pos newitem -> heap !!! pos = newitem ->
  is_heap (_siftdown heap 0 pos).
Proof.
  intros Hinv Hnew. unfold _siftdown. rewrite Hnew.
  by apply siftdown_loop_heap.
Qed.

(** The walk down of [_siftup] from [pos]: the order holds everywhere, but
    below the root while the hole is still the root. *)
Lemma siftup_loop_heap fuel heap pos :
  length heap <= fuel + pos -> pos < length heap ->
  (forall i, 0 < i < length heap -> (pos = 0 -> (i - 1) / 2 <> 0) ->
     (f_cost (heap !!! ((i - 1) / 2)%nat) <= f_cost (heap !!! i))%Z) ->
  let r := _siftup_loop fuel heap (length heap) pos in
  is_heap r.1 /\ r.2 < length r.1 /\ length r.1 <= 2 * r.2 + 1.
Proof.
  revert heap pos. induction fuel as [|fuel IH]; intros heap pos Hfuel Hpos Hord;
    cbn [_siftup_loop]; [lia|].
  destruct (2 * pos + 1 <? length heap) eqn:E.
  2:{ apply Nat.ltb_ge in E. simpl. split; [|lia].
      intros i Hi. apply Hord; [done|]. intros ->. lia. }
  apply Nat.ltb_lt in E.
  set (c := if _ && _ then _ else _).
  assert (Hc : (c = 2 * pos + 1 \/ c = 2 * pos + 2) /\ c < length heap /\
               forall i, i < length heap -> i = 2 * pos + 1 \/ i = 2 * pos + 2 ->
                         (f_cost (heap !!! c) <= f_cost (heap !!! i))%Z).
  { subst c. destruct (2 * pos + 1 + 1 <? length heap) eqn:E2; cbn [andb negb].
    - apply Nat.ltb_lt in E2. unfold Node_lt.
      destruct (Z.ltb_spec (f_cost (heap !!! (2 * pos + 1)%nat))
                           (f_cost (heap !!! (2 * pos + 1 + 1)%nat))) as [Hlt|Hge];
        cbn [andb negb].
      + split; [lia|]. split; [lia|]. intros i _ [->| ->]; [lia|].
        replace (2 * pos + 2) with (2 * pos + 1 + 1) by lia. lia.
      + split; [lia|]. split; [lia|]. intros i _ [->| ->]; [lia|].
        replace (2 * pos + 2) with (2 * pos + 1 + 1) by lia. lia.
    - apply Nat.ltb_ge in E2. split; [lia|]. split; [lia|].
      intros i Hi [->| ->]; lia. }
  destruct Hc as (Hc & Hclt & Hcmin).
  specialize (IH (<[pos := heap !!! c]> heap) c).
  rewrite length_insert in IH. apply IH; [lia | lia |].
  intros i Hi _. pose proof (parent_lt i ltac:(lia)) as Hpar.
  pose proof (parent_child i pos ltac:(lia)) as Hpc.
  destruct (decide (i = pos)) as [->|Hip].
  - rewrite list_lookup_total_insert_eq, list_lookup_total_insert_ne by lia.
    assert (Hcp : (c - 1) / 2 = pos) by (apply parent_child; lia).
    pose proof (Hord c ltac:(lia) ltac:(lia)) as Hcc. rewrite Hcp in Hcc.
    etransitivity; [apply (Hord pos); lia | exact Hcc].
  - rewrite (list_lookup_total_insert_ne _ _ i) by lia.
    destruct (decide ((i - 1) / 2 = pos)) as [Hp|Hp].
    + rewrite Hp, list_lookup_total_insert_eq by lia.
      apply Hcmin; [lia|]. apply Hpc, Hp.
    + rewrite list_lookup_total_insert_ne by lia. apply Hord; [lia|]. intros ->. done.
Qed.

Lemma siftup_heap heap :
  0 < length heap ->
  (forall i, 0 < i < length heap -> (i - 1) / 2 <> 0 ->
     (f_cost (heap !!! ((i - 1) / 2)%nat) <= f_cost (heap !!! i))%Z) ->
  is_heap (_siftup heap 0).
Proof.
  intros Hlen Hord. unfold _siftup.
  pose proof (siftup_loop_heap (length heap) heap 0 ltac:(lia) Hlen
                ltac:(intros i Hi Hp; apply Hord; auto)) as (Hheap & Hlt & Hleaf).
  destruct (_siftup_loop _ _ _ _) as [heap' pos']; simpl in *.
  apply siftdown_heap_at with (newitem := heap !!! 0);
    [|by rewrite list_lookup_total_insert_eq].
  split; rewrite ?length_insert.
  - done.
  - intros i Hi Hne. pose proof (parent_child i pos' ltac:(lia)).
    rewrite !list_lookup_total_insert_ne by lia. by apply Hheap.
  - intros c Hc Hp. pose proof (parent_child c pos' ltac:(lia)). lia.
  - intros c Hc Hp. pose proof (parent_child c pos' ltac:(lia)). lia.
Qed.

Lemma heappush_heap heap item : is_heap heap -> is_heap (heappush heap item).
Proof.
  intros Hheap. unfold heappush. rewrite length_app. cbn [length].
  replace (length heap + 1 - 1) with (length heap) by lia.
  apply siftdown_heap_at with (newitem := item);
    [|by rewrite list_lookup_total_middle].
  split; rewrite ?length_app; cbn [length].
  - lia.
  - intros i Hi Hne. pose proof (parent_lt i ltac:(lia)).
    rewrite !lookup_total_app_l by lia. apply Hheap. lia.
  - intros c Hc Hp. pose proof (parent_child c (length heap) ltac:(lia)). lia.
  - intros c Hc Hp. pose proof (parent_child c (length heap) ltac:(lia)). lia.
Qed.

Lemma is_heap_nil : is_heap [].
Proof. intros i. simpl. lia. Qed.

(** [heappop] returns an entry of least [f_cost] and leaves a heap. *)
Lemma heappop_heap heap item heap' :
  is_heap heap -> heappop heap = Some (item, heap') ->
  is_heap heap' /\ forall x, In x heap -> (f_cost item <= f_cost x)%Z.
Proof.
  intros Hheap. destruct heap as [|a heap]; [done|]. unfold heappop.
  assert (Hsplit : a :: heap = removelast (a :: heap) ++ [List.last (a :: heap) inhabitant])
    by (apply app_removelast_last; done).
  set (lastelt := List.last (a :: heap) inhabitant) in *.
  destruct (removelast (a :: heap)) as [|r t] eqn:Er.
  - intros [= <- <-]. split; [apply is_heap_nil|].
    rewrite Hsplit. simpl. intros x [<-|[]]. reflexivity.
  - intros [= <- <-]. split.
    + apply siftup_heap; [cbn [length]; lia|].
      intros i Hi Hp. pose proof (parent_lt i ltac:(lia)).
      change (lastelt :: t) with (<[0 := lastelt]> (r :: t)).
      rewrite !list_lookup_total_insert_ne by lia.
      pose proof (Hheap i) as Hi'. rewrite Hsplit, length_app in Hi'.
      cbn [length] in *.
      rewrite !lookup_total_app_l in Hi' by (cbn [length]; lia).
      apply Hi'. lia.
    + intros x Hx. pose proof (is_heap_min _ _ Hheap Hx) as Hmin.
      rewrite Hsplit in Hmin at 1. exact Hmin.
Qed.
End heap_facts.

(** ** One expansion step *)

Section search_facts.
Variables (pf : AStarPathfinder) (goal_node : Node) (snake_body : list (Z * Z)).

Lemma get_neighbors_In current_node neighbor :
  In neighbor (get_neighbors pf current_node) <->
  exists d, In d directions /\
    neighbor = Node_init (node_x current_node + fst d) (node_y current_node + snd d) /\
    in_bounds pf (cell_of neighbor) = true.
Proof.
  unfold get_neighbors. rewrite in_flat_map. split.
  - intros (d & Hd & Hin). exists d. split; [done|].
    destruct (in_bounds pf _) eqn:E; simpl in Hin; [|done].
    destruct Hin as [<-|[]]. done.
  - intros (d & Hd & -> & Hb). exists d. split; [done|].
    unfold cell_of in Hb. simpl in Hb. rewrite Hb. by left.
Qed.

Lemma in_closed_spec neighbor closed_set :
  in_closed neighbor closed_set = true <->
  In (cell_of neighbor) (map cell_of closed_set).
Proof.
  unfold in_closed. rewrite existsb_exists, in_map_iff. split.
  - intros (c & Hc & Heq). exists c. by apply Node_eq_cell in Heq.
  - intros (c & Heq & Hc). exists c. split; [done|]. by apply Node_eq_cell.
Qed.

(** What one neighbour does: nothing when its cell is closed, unsafe or
    already in the open set, a push of [discovered] otherwise. *)
Lemma visit_neighbor_cases closed_set current_node open_set neighbor :
  let open_set' :=
    visit_neighbor pf goal_node snake_body closed_set current_node open_set neighbor in
  (open_set' = open_set /\
   (In (cell_of neighbor) (map cell_of closed_set) \/
    is_safe_position pf (node_x neighbor) (node_y neighbor) snake_body true = false \/
    In (cell_of neighbor) (map cell_of open_set)))
  \/
  (open_set' = heapq.heappush open_set (discovered goal_node current_node neighbor) /\
   ~ In (cell_of neighbor) (map cell_of closed_set) /\
   is_safe_position pf (node_x neighbor) (node_y neighbor) snake_body true = true /\
   ~ In (cell_of neighbor) (map cell_of open_set)).
Proof.
  unfold visit_neighbor.
  destruct (in_closed neighbor closed_set) eqn:Ec.
  { left. split; [done|]. left. by apply in_closed_spec. }
  destruct (is_safe_position pf _ _ snake_body true) eqn:Es; simpl.
  2:{ left. split; [done|]. right. by left. }
  destruct (find _ open_set) as [e|] eqn:Ef.
  - left. split; [done|]. right. right.
    apply find_some in Ef as [He Heq]. apply Node_eq_cell in Heq.
    rewrite <- Heq. by apply in_map.
  - right. split; [done|]. split; [|split; [done|]].
    + rewrite <- in_closed_spec. by rewrite Ec.
    + intros (e & Heq & He)%in_map_iff.
      pose proof (find_none _ _ Ef e He) as Hne. simpl in Hne.
      apply Node_eq_cell in Heq. by rewrite Heq in Hne.
Qed.

Lemma discovered_cell current_node neighbor :
  cell_of (discovered goal_node current_node neighbor) = cell_of neighbor.
Proof. done. Qed.

(** The fold of [visit_neighbor] over any list of neighbours; [expand] is
    the case of [get_neighbors]. *)
Section fold_neighbors.
Variables (closed_set : list Node) (current_node : Node).

Local Abbreviation visit :=
  (visit_neighbor pf goal_node snake_body closed_set current_node).

Lemma fold_visit_incl neighbors open_set n :
  In n open_set -> In n (fold_left visit neighbors open_set).
Proof.
  revert open_set. induction neighbors as [|nb nbs IH]; intros open_set Hn; [done|].
  simpl. apply IH.
  destruct (visit_neighbor_cases closed_set current_node open_set nb) as [[-> _]|[-> _]];
    [done|].
  apply (Permutation_in _ (symmetry (heappush_perm _ _))). by right.
Qed.

Lemma fold_visit_origin neighbors open_set n :
  In n (fold_left visit neighbors open_set) ->
  In n open_set \/
  exists neighbor, In neighbor neighbors /\
    n = discovered goal_node current_node neighbor /\
    ~ In (cell_of neighbor) (map cell_of closed_set) /\
    is_safe_position pf (node_x neighbor) (node_y neighbor) snake_body true = true.
Proof.
  revert open_set. induction neighbors as [|nb nbs IH]; intros open_set Hn; [by left|].
  simpl in Hn. apply IH in Hn as [Hn|(nb' & Hin & Hrest)].
  - destruct (visit_neighbor_cases closed_set current_node open_set nb)
      as [[Heq _]|(Heq & Hc & Hs & _)]; rewrite Heq in Hn.
    + by left.
    + apply (Permutation_in _ (heappush_perm _ _)) in Hn as [<-|Hn]; [|by left].
      right. exists nb. split; [by left|done].
  - right. exists nb'. split; [by right|done].
Qed.

Lemma fold_visit_covers neighbors open_set neighbor :
  In neighbor neighbors ->
  ~ In (cell_of neighbor) (map cell_of closed_set) ->
  is_safe_position pf (node_x neighbor) (node_y neighbor) snake_body true = true ->
  In (cell_of neighbor) (map cell_of (fold_left visit neighbors open_set)).
Proof.
  revert open_set. induction neighbors as [|nb nbs IH]; intros open_set Hin Hc Hs; [done|].
  simpl. destruct Hin as [->|Hin]; [|by apply IH].
  destruct (visit_neighbor_cases closed_set current_node open_set neighbor)
    as [[Heq [?|[?|Ho]]]|(Heq & _)]; rewrite Heq;
    try done; try congruence.
  - apply in_map_iff in Ho as (e & He & Hin). apply in_map_iff.
    exists e. split; [done|]. by apply fold_visit_incl.
  - apply in_map_iff. exists (discovered goal_node current_node neighbor).
    split; [done|]. apply fold_visit_incl.
    apply (Permutation_in _ (symmetry (heappush_perm _ _))). by left.
Qed.

Lemma fold_visit_heap neighbors open_set :
  is_heap open_set -> is_heap (fold_left visit neighbors open_set).
Proof.
  revert open_set. induction neighbors as [|nb nbs IH]; intros open_set Hh; [done|].
  simpl. apply IH.
  destruct (visit_neighbor_cases closed_set current_node open_set nb) as [[-> _]|[-> _]];
    [done | by apply heappush_heap].
Qed.

Lemma fold_visit_nodup neighbors open_set :
  List.NoDup (map cell_of (open_set ++ closed_set)) ->
  List.NoDup (map cell_of (fold_left visit neighbors open_set ++ closed_set)).
Proof.
  revert open_set. induction neighbors as [|nb nbs IH]; intros open_set Hnd; [done|].
  simpl. apply IH.
  destruct (visit_neighbor_cases closed_set current_node open_set nb)
    as [[-> _]|(-> & Hc & _ & Ho)]; [done|].
  rewrite (heappush_perm open_set). simpl. apply List.NoDup_cons; [|done].
  rewrite map_app, in_app_iff. tauto.
Qed.
End fold_neighbors.

(** ** The loop *)

(** A property that every iteration keeps holds when the loop stops. *)
Section loop_invariant.
Variable Inv : list Node -> list Node -> Prop.
Hypothesis Inv_step : forall open_set closed_set current_node open_set',
  Inv open_set closed_set ->
  heapq.heappop open_set = Some (current_node, open_set') ->
  Node_eq current_node goal_node = false ->
  Inv (expand pf goal_node snake_body (current_node :: closed_set) current_node open_set')
      (current_node :: closed_set).

Lemma search_loop_inv fuel open_set closed_set :
  Inv open_set closed_set ->
  match search_loop pf goal_node snake_body fuel open_set closed_set with
  | (Returned None, closed') => Inv [] closed'
  | (Returned (Some path), closed') =>
      exists open0 closed0 current_node open',
        Inv open0 closed0 /\
        heapq.heappop open0 = Some (current_node, open') /\
        Node_eq current_node goal_node = true /\
        path = _reconstruct_path pf current_node /\
        closed' = current_node :: closed0
  | (Running, closed') =>
      (exists open', Inv open' closed') /\
      length closed' = (fuel + length closed_set)%nat
  end.
Proof.
  revert open_set closed_set.
  induction fuel as [|fuel IH]; intros open_set closed_set Hinv; simpl.
  { split; [by exists open_set | done]. }
  destruct (heapq.heappop open_set) as [[current_node open_set']|] eqn:Epop.
  2:{ apply heappop_None in Epop. by subst. }
  destruct (Node_eq current_node goal_node) eqn:Egoal.
  { by exists open_set, closed_set, current_node, open_set'. }
  specialize (IH _ _ (Inv_step _ _ _ _ Hinv Epop Egoal)).
  destruct (search_loop _ _ _ _ _ _) as [[[path|]|] closed']; try done.
  destruct IH as [Hex Hlen]. split; [done|]. rewrite Hlen. simpl. lia.
Qed.
End loop_invariant.

(** Once the loop has returned, more iterations change nothing. *)
Lemma search_loop_more_fuel fuel fuel' open_set closed_set r closed' :
  search_loop pf goal_node snake_body fuel open_set closed_set = (Returned r, closed') ->
  (fuel <= fuel')%nat ->
  search_loop pf goal_node snake_body fuel' open_set closed_set = (Returned r, closed').
Proof.
  revert fuel' open_set closed_set.
  induction fuel as [|fuel IH]; intros [|fuel'] open_set closed_set Hrun Hle;
    simpl in *; try done; try lia.
  destruct (heapq.heappop open_set) as [[current_node open_set']|]; [|done].
  destruct (Node_eq current_node goal_node); [done|].
  apply IH; [done | lia].
Qed.

(** *** The invariant of every search *)

Lemma reached_in_grid start_node n :
  reached pf goal_node snake_body start_node n ->
  cell_of n = cell_of start_node \/ in_bounds pf (cell_of n) = true.
Proof.
  intros [|current_node neighbor _ Hnb _]; [by left|]. right.
  apply get_neighbors_In in Hnb as (d & _ & _ & Hb). done.
Qed.

Lemma search_inv_init start_node :
  search_inv pf goal_node snake_body start_node (heapq.heappush [] start_node) [].
Proof.
  change (heapq.heappush [] start_node) with [start_node]. split.
  - intros i. simpl. lia.
  - intros n [<-|[]]. constructor.
  - simpl. repeat constructor. by intros [].
Qed.

Lemma search_inv_step start_node open_set closed_set current_node open_set' :
  search_inv pf goal_node snake_body start_node open_set closed_set ->
  heapq.heappop open_set = Some (current_node, open_set') ->
  search_inv pf goal_node snake_body start_node
    (expand pf goal_node snake_body (current_node :: closed_set) current_node open_set')
    (current_node :: closed_set).
Proof.
  intros [Hheap Hreached Hnodup] Hpop.
  pose proof (heappop_perm _ _ _ Hpop) as Hperm.
  assert (Hcur : reached pf goal_node snake_body start_node current_node).
  { apply Hreached, in_app_iff. left.
    apply (Permutation_in _ (symmetry Hperm)). by left. }
  unfold expand. split.
  - apply fold_visit_heap. by apply (heappop_heap _ _ _ Hheap Hpop).
  - intros n [Hn|[<-|Hn]]%in_app_iff; [| done | apply Hreached, in_app_iff; by right].
    apply fold_visit_origin in Hn as [Hn|(nb & Hin & -> & _ & Hs)].
    + apply Hreached, in_app_iff. left.
      apply (Permutation_in _ (symmetry Hperm)). by right.
    + by apply reached_step.
  - apply fold_visit_nodup.
    rewrite Hperm in Hnodup. simpl in Hnodup.
    eapply Permutation_NoDup; [|exact Hnodup].
    rewrite !map_app. simpl. apply Permutation_middle.
Qed.

(** *** Termination *)

Lemma all_cells_length : length (all_cells pf)
  = (Z.to_nat (grid_cols pf) * Z.to_nat (grid_rows pf))%nat.
Proof. unfold all_cells. by rewrite length_prod, !length_map, !length_seq. Qed.

Lemma in_bounds_all_cells c : in_bounds pf c = true -> In c (all_cells pf).
Proof.
  destruct c as [x y]. unfold in_bounds, all_cells; simpl.
  rewrite !andb_true_iff, !Z.leb_le, !Z.ltb_lt. intros [[[Hx0 Hx1] Hy0] Hy1].
  apply in_prod; apply in_map_iff.
  - exists (Z.to_nat x). split; [lia|]. apply in_seq. lia.
  - exists (Z.to_nat y). split; [lia|]. apply in_seq. lia.
Qed.

Lemma search_inv_closed_bound start_node open_set closed_set :
  search_inv pf goal_node snake_body start_node open_set closed_set ->
  List.NoDup (map cell_of closed_set) /\
  (length closed_set < search_fuel pf)%nat.
Proof.
  intros [_ Hreached Hnodup].
  rewrite map_app in Hnodup. apply NoDup_app_remove_l in Hnodup.
  split; [done|].
  assert (Hincl : incl (map cell_of closed_set) (cell_of start_node :: all_cells pf)).
  { intros c (n & <- & Hn)%in_map_iff.
    destruct (reached_in_grid start_node n) as [->|Hb].
    - apply Hreached, in_app_iff. by right.
    - by left.
    - right. by apply in_bounds_all_cells. }
  apply NoDup_incl_length in Hincl; [|done].
  rewrite length_map in Hincl. simpl in Hincl. rewrite all_cells_length in Hincl.
  unfold search_fuel. lia.
Qed.

Lemma search_returns start_node fuel open_set closed_set :
  search_inv pf goal_node snake_body start_node open_set closed_set ->
  (search_fuel pf <= fuel + length closed_set)%nat ->
  exists r closed',
    search_loop pf goal_node snake_body fuel open_set closed_set = (Returned r, closed').
Proof.
  intros Hinv Hfuel.
  pose proof (search_loop_inv (search_inv pf goal_node snake_body start_node)
                (fun o c n o' H Hpop _ => search_inv_step start_node o c n o' H Hpop)
                fuel open_set closed_set Hinv) as Hres.
  destruct (search_loop _ _ _ _ _ _) as [[r|] closed']; [by exists r, closed'|].
  destruct Hres as [[open' Hinv'] Hlen].
  apply search_inv_closed_bound in Hinv' as [_ Hlt]. lia.
Qed.

(** *** The path of a reached node *)

Lemma reconstruct_path_cells n :
  _reconstruct_path pf n = map (grid_to_pixel pf) (chain_cells n).
Proof. unfold _reconstruct_path, chain_cells. by rewrite map_rev, map_map. Qed.

Lemma chain_cells_discovered current_node neighbor :
  chain_cells (discovered goal_node current_node neighbor)
  = chain_cells current_node ++ [cell_of neighbor].
Proof. done. Qed.

Lemma reached_walk start_node n :
  parent start_node = None -> g_cost start_node = 0 ->
  reached pf goal_node snake_body start_node n ->
  let cells := chain_cells n in
  nth_error cells 0 = Some (cell_of start_node) /\
  nth_error cells (length cells - 1) = Some (cell_of n) /\
  Z.of_nat (length cells) = g_cost n + 1 /\
  (forall i a b, nth_error cells i = Some a -> nth_error cells (S i) = Some b ->
     grid_step a b) /\
  (forall i a, (1 <= i)%nat -> nth_error cells i = Some a ->
     in_bounds pf a = true /\
     is_safe_position pf (fst a) (snd a) snake_body true = true).
Proof.
  intros Hroot Hg0 Hreached.
  induction Hreached as [|current_node neighbor Hcur IH Hnb Hsafe]; cbn zeta.
  { unfold chain_cells. destruct start_node as [x y g h f p]. simpl in *. subst.
    simpl. split; [done|]. split; [done|]. split; [done|]. split.
    - intros [|i] a b Ha Hb; simpl in *; [done | by destruct i].
    - intros [|[|i]] a Hi Ha; simpl in *; (lia || done). }
  cbn zeta in IH. destruct IH as (Hfirst & Hlast & Hlen & Hsteps & Hcells).
  rewrite chain_cells_discovered. set (cells := chain_cells current_node) in *.
  assert (Hpos : (0 < length cells)%nat).
  { destruct cells; [done | simpl; lia]. }
  rewrite length_app. cbn [length].
  pose proof Hnb as (d & Hd & Heq & Hb)%get_neighbors_In.
  split; [|split; [|split; [|split]]].
  - by rewrite nth_error_app1.
  - rewrite nth_error_app2 by lia.
    by replace (length cells + 1 - 1 - length cells)%nat with 0%nat by lia.
  - unfold discovered. cbn [g_cost]. lia.
  - intros i a b Ha Hb'.
    destruct (decide (S i < length cells)%nat) as [Hlt|Hge].
    + rewrite nth_error_app1 in Ha, Hb' by lia. by apply (Hsteps i).
    + assert (i = (length cells - 1)%nat) as ->.
      { assert (Hb2 : nth_error (cells ++ [cell_of neighbor]) (S i) <> None)
          by congruence.
        apply nth_error_Some in Hb2. rewrite length_app in Hb2. simpl in Hb2. lia. }
      rewrite nth_error_app1 in Ha by lia. rewrite Hlast in Ha. injection Ha as <-.
      rewrite nth_error_app2 in Hb' by lia.
      replace (S (length cells - 1) - length cells)%nat with 0%nat in Hb' by lia.
      injection Hb' as <-. exists d. split; [done|]. by rewrite Heq.
  - intros i a Hi Ha.
    destruct (decide (i < length cells)%nat) as [Hlt|Hge].
    + rewrite nth_error_app1 in Ha by lia. by apply (Hcells i).
    + rewrite nth_error_app2 in Ha by lia.
      destruct (i - length cells)%nat as [|k]; simpl in Ha; [|by destruct k].
      by injection Ha as <-.
Qed.
End search_facts.

(** ** What [find_path] returns *)

(** The pathfinder of [SnakeAI] is [AStarPathfinder(grid_width, grid_height)]
    with the default cell size. *)
Lemma SnakeAI_pathfinder grid_width grid_height :
  AStarPathfinder_init grid_width grid_height 10
  = Some (pathfinder (SnakeAI_init grid_width grid_height)).
Proof. done. Qed.

Lemma cell_of_start_node pf start_pos :
  cell_of (start_node_of pf start_pos) = pixel_to_grid pf start_pos.
Proof. done. Qed.

Lemma cell_of_goal_node pf goal_pos :
  cell_of (goal_node_of pf goal_pos) = pixel_to_grid pf goal_pos.
Proof. done. Qed.

Lemma start_node_root pf start_pos :
  parent (start_node_of pf start_pos) = None /\ g_cost (start_node_of pf start_pos) = 0.
Proof. done. Qed.

(** Every call returns within [search_fuel] iterations; the closed set it
    leaves has no cell twice; a returned path is the path of a reached node
    on the goal cell, and [None] is returned with the open set empty. *)
Lemma find_path_outcome pf start_pos goal_pos snake_body :
  let start_node := start_node_of pf start_pos in
  let goal_node := goal_node_of pf goal_pos in
  exists r closed_set,
    (forall fuel, (search_fuel pf <= fuel)%nat ->
       find_path_from pf fuel start_pos goal_pos snake_body = (Returned r, closed_set)) /\
    find_path pf start_pos goal_pos snake_body = r /\
    List.NoDup (map cell_of closed_set) /\
    match r with
    | None => search_inv pf goal_node snake_body start_node [] closed_set
    | Some path =>
        exists n, reached pf goal_node snake_body start_node n /\
                  Node_eq n goal_node = true /\
                  path = _reconstruct_path pf n
    end.
Proof.
  intros start_node goal_node.
  pose proof (search_inv_init pf goal_node snake_body start_node) as Hinit.
  destruct (search_returns pf goal_node snake_body start_node (search_fuel pf) _ []
              Hinit ltac:(lia)) as (r & closed_set & Hrun).
  exists r, closed_set.
  assert (Hfrom : forall fuel, (search_fuel pf <= fuel)%nat ->
            find_path_from pf fuel start_pos goal_pos snake_body = (Returned r, closed_set)).
  { intros fuel Hle. unfold find_path_from.
    by apply (search_loop_more_fuel pf goal_node snake_body (search_fuel pf)). }
  split; [done|]. split.
  { unfold find_path. by rewrite Hfrom. }
  pose proof (search_loop_inv pf goal_node snake_body
                (search_inv pf goal_node snake_body start_node)
                (fun o c n o' H Hpop _ =>
                   search_inv_step pf goal_node snake_body start_node o c n o' H Hpop)
                (search_fuel pf) _ [] Hinit) as Hres.
  rewrite Hrun in Hres. destruct r as [path|].
  - destruct Hres as (open0 & closed0 & n & open' & Hinv & Hpop & Hgoal & -> & ->).
    split.
    + pose proof (search_inv_step _ _ _ _ _ _ _ _ Hinv Hpop) as Hinv'.
      by apply search_inv_closed_bound in Hinv' as [Hnd _].
    + exists n. split; [|done].
      apply (inv_reached _ _ _ _ _ _ Hinv), in_app_iff. left.
      apply (Permutation_in _ (symmetry (heappop_perm _ _ _ Hpop))). by left.
  - split; [|done]. by apply search_inv_closed_bound in Hres as [Hnd _].
Qed.

(** The cells of a returned path: it starts on the start cell, ends on the
    goal cell, moves by one grid step at a time, and every cell after the
    first is inside the grid and safe. *)
Lemma find_path_cells pf start_pos goal_pos snake_body path :
  find_path pf start_pos goal_pos snake_body = Some path ->
  exists cells,
    path = map (grid_to_pixel pf) cells /\
    nth_error cells 0 = Some (pixel_to_grid pf start_pos) /\
    nth_error cells (length cells - 1) = Some (pixel_to_grid pf goal_pos) /\
    (forall i a b, nth_error cells i = Some a -> nth_error cells (S i) = Some b ->
       grid_step a b) /\
    (forall i a, (1 <= i)%nat -> nth_error cells i = Some a ->
       in_bounds pf a = true /\
       is_safe_position pf (fst a) (snd a) snake_body true = true).
Proof.
  intros Hfind.
  destruct (find_path_outcome pf start_pos goal_pos snake_body)
    as (r & closed_set & _ & Hr & _ & Hpath).
  rewrite Hfind in Hr. subst r. destruct Hpath as (n & Hreached & Hgoal & ->).
  destruct (start_node_root pf start_pos) as [Hroot Hg0].
  destruct (reached_walk pf _ _ _ n Hroot Hg0 Hreached)
    as (Hfirst & Hlast & _ & Hsteps & Hcells).
  exists (chain_cells n). split; [apply reconstruct_path_cells|].
  split; [|split; [|done]].
  - by rewrite Hfirst, cell_of_start_node.
  - apply Node_eq_cell in Hgoal. by rewrite Hlast, Hgoal, cell_of_goal_node.
Qed.

Lemma pixel_grid_pixel pf c :
  cell_size pf <> 0 -> pixel_to_grid pf (grid_to_pixel pf c) = c.
Proof.
  intros Hcs. destruct c as [x y]. unfold pixel_to_grid, grid_to_pixel. simpl.
  by rewrite !Z.div_mul.
Qed.

Lemma is_safe_position_spec pf x y snake_body ignore_tail :
  is_safe_position pf x y snake_body ignore_tail = true <->
  ~ In (x, y) (snake_grid_positions pf snake_body ignore_tail).
Proof.
  unfold is_safe_position. rewrite negb_true_iff, <- not_true_iff_false, existsb_exists.
  split.
  - intros Hno Hin. apply Hno. exists (x, y). split; [done|]. by apply cell_eqb_eq.
  - intros Hno (c & Hin & Heq). apply cell_eqb_eq in Heq. by subst.
Qed.

(** ** Shortest paths on a grid without obstacles *)

Lemma manhattan_cell a b goal_node :
  cell_of a = cell_of b ->
  manhattan_distance a goal_node = manhattan_distance b goal_node.
Proof. unfold cell_of, manhattan_distance. by intros [= -> ->]. Qed.

Lemma manhattan_zero a goal_node :
  Node_eq a goal_node = true -> manhattan_distance a goal_node = 0.
Proof.
  intros [= Hx Hy]%Node_eq_cell. unfold manhattan_distance. rewrite Hx, Hy. lia.
Qed.

Lemma manhattan_neighbor pf current_node nb goal_node :
  In nb (get_neighbors pf current_node) ->
  manhattan_distance current_node goal_node - 1 <= manhattan_distance nb goal_node
    <= manhattan_distance current_node goal_node + 1.
Proof.
  intros (d & Hd & -> & _)%get_neighbors_In. unfold manhattan_distance. simpl.
  destruct Hd as [<-|[<-|[<-|[<-|[]]]]]; simpl; lia.
Qed.

(** From any in-bounds cell but the goal, one of the four neighbours is in
    bounds and one step nearer to an in-bounds goal. *)
Lemma neighbor_towards_goal pf current_node goal_node :
  in_bounds pf (cell_of current_node) = true ->
  in_bounds pf (cell_of goal_node) = true ->
  Node_eq current_node goal_node = false ->
  exists nb, In nb (get_neighbors pf current_node) /\
    manhattan_distance nb goal_node = manhattan_distance current_node goal_node - 1.
Proof.
  unfold in_bounds, cell_of, Node_eq, manhattan_distance. simpl.
  rewrite !andb_true_iff, andb_false_iff, !Z.leb_le, !Z.ltb_lt, !Z.eqb_neq.
  intros [[[Hx0 Hx1] Hy0] Hy1] [[[Gx0 Gx1] Gy0] Gy1] Hne.
  assert (Hcase : node_x current_node < node_x goal_node \/
                  node_x goal_node < node_x current_node \/
                  node_y current_node < node_y goal_node \/
                  node_y goal_node < node_y current_node) by lia.
  assert (Hnb : forall d, In d directions ->
            in_bounds pf (node_x current_node + fst d, node_y current_node + snd d) = true ->
            In (Node_init (node_x current_node + fst d) (node_y current_node + snd d))
               (get_neighbors pf current_node)).
  { intros d Hd Hb. apply get_neighbors_In. by exists d. }
  unfold in_bounds in Hnb. simpl in Hnb.
  destruct Hcase as [H|[H|[H|H]]].
  - exists (Node_init (node_x current_node + 1) (node_y current_node + 0)). split.
    + apply (Hnb (1, 0)); [simpl; tauto|]. simpl.
      rewrite !andb_true_iff, !Z.leb_le, !Z.ltb_lt. lia.
    + simpl. lia.
  - exists (Node_init (node_x current_node + -1) (node_y current_node + 0)). split.
    + apply (Hnb (-1, 0)); [simpl; tauto|]. simpl.
      rewrite !andb_true_iff, !Z.leb_le, !Z.ltb_lt. lia.
    + simpl. lia.
  - exists (Node_init (node_x current_node + 0) (node_y current_node + 1)). split.
    + apply (Hnb (0, 1)); [simpl; tauto|]. simpl.
      rewrite !andb_true_iff, !Z.leb_le, !Z.ltb_lt. lia.
    + simpl. lia.
  - exists (Node_init (node_x current_node + 0) (node_y current_node + -1)). split.
    + apply (Hnb (0, -1)); [simpl; tauto|]. simpl.
      rewrite !andb_true_iff, !Z.leb_le, !Z.ltb_lt. lia.
    + simpl. lia.
Qed.

Lemma largest_g_cost (closed_set : list Node) :
  closed_set <> [] ->
  exists c, In c closed_set /\ forall c', In c' closed_set -> g_cost c' <= g_cost c.
Proof.
  induction closed_set as [|a l IH]; [done|]. intros _.
  destruct l as [|b l].
  { exists a. split; [by left|]. intros c' [<-|[]]. lia. }
  destruct IH as (c & Hc & Hmax); [done|].
  destruct (Z.le_gt_cases (g_cost a) (g_cost c)) as [Hle|Hgt].
  - exists c. split; [by right|]. intros c' [<-|Hc']; [done | by apply Hmax].
  - exists a. split; [by left|]. intros c' [<-|Hc']; [lia|].
    specialize (Hmax c' Hc'). lia.
Qed.

Section obstacle_free.
Variables (pf : AStarPathfinder) (goal_node : Node) (snake_body : list (Z * Z))
          (start_node : Node).
Hypothesis start_g : g_cost start_node = 0.
Hypothesis start_root : parent start_node = None.
Hypothesis start_in_bounds : in_bounds pf (cell_of start_node) = true.
Hypothesis goal_in_bounds : in_bounds pf (cell_of goal_node) = true.
Hypothesis obstacle_free :
  forall c, In c (snake_grid_positions pf snake_body true) -> c = cell_of start_node.

Local Abbreviation D := (manhattan_distance start_node goal_node).
Local Abbreviation hG n := (manhattan_distance n goal_node).

Lemma safe_off_start nb :
  cell_of nb <> cell_of start_node ->
  is_safe_position pf (node_x nb) (node_y nb) snake_body true = true.
Proof.
  intros Hne. apply is_safe_position_spec. intros Hin.
  by apply obstacle_free in Hin.
Qed.

Lemma discovered_costs current_node nb :
  let n := discovered goal_node current_node nb in
  g_cost n = g_cost current_node + 1 /\
  hG n = hG nb /\
  f_cost n = g_cost n + hG n.
Proof. done. Qed.

(** One iteration from a state whose popped node lies on a shortest path. *)
Lemma frontier_step open_set closed_set m open_set' :
  search_inv pf goal_node snake_body start_node open_set closed_set ->
  heapq.heappop open_set = Some (m, open_set') ->
  g_cost m + hG m = D ->
  Node_eq m goal_node = false ->
  In start_node (m :: closed_set) ->
  (forall c, In c closed_set ->
     g_cost c + hG c = D /\ Node_eq c goal_node = false) ->
  (forall n, In n open_set' ->
     f_cost n = g_cost n + hG n /\ D <= f_cost n /\
     exists p, In p closed_set /\ g_cost n = g_cost p + 1) ->
  (forall c, In c closed_set ->
     (forall c', In c' (m :: closed_set) -> g_cost c' <= g_cost c) ->
     forall nb, In nb (get_neighbors pf c) -> hG nb = hG c - 1 ->
     exists n, In n open_set' /\ cell_of n = cell_of nb /\ f_cost n = D) ->
  frontier_inv pf goal_node snake_body start_node
    (expand pf goal_node snake_body (m :: closed_set) m open_set')
    (m :: closed_set).
Proof.
  intros Hinv Hpop Hm Hmgoal Hstart Hclosed Hopen Hmax.
  assert (Hclosed' : forall c, In c (m :: closed_set) ->
            g_cost c + hG c = D /\ Node_eq c goal_node = false).
  { intros c [<-|Hc]; [done | by apply Hclosed]. }
  assert (Hopen' : forall n,
            In n (expand pf goal_node snake_body (m :: closed_set) m open_set') ->
            f_cost n = g_cost n + hG n /\ D <= f_cost n /\
            exists p, In p (m :: closed_set) /\ g_cost n = g_cost p + 1).
  { intros n [Hn|(nb & Hnb & -> & _)]%fold_visit_origin.
    - destruct (Hopen n Hn) as (Hf & HD & p & Hp & Hg).
      split; [done|]. split; [done|]. exists p. split; [by right | done].
    - destruct (discovered_costs m nb) as (Hg & Hh & Hf).
      pose proof (manhattan_neighbor pf m nb goal_node Hnb).
      split; [done|]. split; [cbn zeta in *; lia|]. exists m. split; [by left | done]. }
  split; [by eapply search_inv_step | done | done | done |].
  intros c Hc Hlargest nb Hnb Hnear. destruct Hc as [<-|Hc].
  2:{ destruct (Hmax c Hc Hlargest nb Hnb Hnear) as (n & Hn & Hcell & Hf).
      exists n. split; [by apply fold_visit_incl | done]. }
  assert (Hfresh : ~ In (cell_of nb) (map cell_of (m :: closed_set))).
  { intros (c' & Hcell & Hc')%in_map_iff.
    destruct (Hclosed' c' Hc') as [Hgh _]. specialize (Hlargest c' Hc').
    rewrite (manhattan_cell c' nb goal_node Hcell) in Hgh. lia. }
  assert (Hsafe : is_safe_position pf (node_x nb) (node_y nb) snake_body true = true).
  { apply safe_off_start. intros Heq. apply Hfresh. rewrite Heq. by apply in_map. }
  pose proof (fold_visit_covers pf goal_node snake_body (m :: closed_set) m
                (get_neighbors pf m) open_set' nb Hnb Hfresh Hsafe)
    as (n & Hcell & Hn)%in_map_iff.
  exists n. split; [done|]. split; [done|].
  destruct (Hopen' n Hn) as (Hf & HD & p & Hp & Hg).
  specialize (Hlargest p Hp).
  rewrite (manhattan_cell n nb goal_node Hcell) in Hf. lia.
Qed.

Lemma frontier_has_best open_set closed_set :
  frontier_inv pf goal_node snake_body start_node open_set closed_set ->
  exists n, In n open_set /\ f_cost n = D.
Proof.
  intros [Hinv Hstart Hclosed Hopen Hmax].
  destruct (largest_g_cost closed_set) as (c & Hc & Hlargest).
  { by destruct closed_set. }
  destruct (Hclosed c Hc) as [_ Hcgoal].
  assert (Hcb : in_bounds pf (cell_of c) = true).
  { destruct (reached_in_grid pf goal_node snake_body start_node c) as [->|Hb]; try done.
    apply (inv_reached _ _ _ _ _ _ Hinv), in_app_iff. by right. }
  destruct (neighbor_towards_goal pf c goal_node Hcb goal_in_bounds Hcgoal)
    as (nb & Hnb & Hnear).
  destruct (Hmax c Hc Hlargest nb Hnb Hnear) as (n & Hn & _ & Hf).
  by exists n.
Qed.

Lemma frontier_pop open_set closed_set m open_set' :
  frontier_inv pf goal_node snake_body start_node open_set closed_set ->
  heapq.heappop open_set = Some (m, open_set') ->
  g_cost m + hG m = D.
Proof.
  intros Hfi Hpop. destruct (frontier_has_best _ _ Hfi) as (n0 & Hn0 & Hf0).
  destruct Hfi as [Hinv _ _ Hopen _].
  destruct (heappop_heap _ _ _ (inv_heap _ _ _ _ _ _ Hinv) Hpop) as [_ Hmin].
  specialize (Hmin n0 Hn0).
  assert (Hm : In m open_set).
  { apply (Permutation_in _ (symmetry (heappop_perm _ _ _ Hpop))). by left. }
  destruct (Hopen m Hm) as (Hf & HD & _). lia.
Qed.

Lemma optimal_inv_step open_set closed_set m open_set' :
  optimal_inv pf goal_node snake_body start_node open_set closed_set ->
  heapq.heappop open_set = Some (m, open_set') ->
  Node_eq m goal_node = false ->
  optimal_inv pf goal_node snake_body start_node
    (expand pf goal_node snake_body (m :: closed_set) m open_set')
    (m :: closed_set).
Proof.
  intros [[-> ->]|Hfi] Hpop Hmgoal; right.
  - injection Hpop as <- <-.
    apply (frontier_step [start_node]); try done.
    + apply search_inv_init.
    + lia.
    + by left.
  - pose proof (frontier_pop _ _ _ _ Hfi Hpop) as Hm.
    pose proof (heappop_perm _ _ _ Hpop) as Hperm.
    destruct Hfi as [Hinv Hstart Hclosed Hopen Hmax].
    apply (frontier_step open_set); try done.
    + by right.
    + intros n Hn. apply Hopen.
      apply (Permutation_in _ (symmetry Hperm)). by right.
    + intros c Hc Hlargest nb Hnb Hnear.
      destruct (Hmax c Hc (fun c' Hc' => Hlargest c' (or_intror Hc')) nb Hnb Hnear)
        as (n & Hn & Hcell & Hf).
      exists n. split; [|done].
      apply (Permutation_in _ Hperm) in Hn as [<-|Hn]; [|done].
      destruct (Hclosed c Hc) as [Hgh _].
      specialize (Hlargest m (or_introl eq_refl)).
      rewrite <- (manhattan_cell m nb goal_node Hcell) in Hnear.
      destruct (Hopen m) as (Hfm & _).
      { apply (Permutation_in _ (symmetry Hperm)). by left. }
      lia.
Qed.

(** On a grid without obstacles, the loop returns the path of a node whose
    chain has Manhattan distance plus one cells. *)
Lemma search_loop_optimal fuel :
  (search_fuel pf <= fuel)%nat ->
  exists n closed_set,
    search_loop pf goal_node snake_body fuel (heapq.heappush [] start_node) []
      = (Returned (Some (_reconstruct_path pf n)), closed_set) /\
    Z.of_nat (length (chain_cells n)) = D + 1.
Proof.
  intros Hfuel.
  destruct (search_returns pf goal_node snake_body start_node fuel _ []
              (search_inv_init pf goal_node snake_body start_node) ltac:(simpl; lia))
    as (r & closed_set & Hrun).
  assert (Hinit : optimal_inv pf goal_node snake_body start_node
                    (heapq.heappush [] start_node) []) by (by left).
  pose proof (search_loop_inv pf goal_node snake_body
                (optimal_inv pf goal_node snake_body start_node)
                optimal_inv_step fuel _ [] Hinit) as Hres.
  rewrite Hrun in Hres. destruct r as [path|].
  - destruct Hres as (open0 & closed0 & n & open' & Hinv & Hpop & Hgoal & -> & ->).
    exists n, (n :: closed0). split; [done|].
    pose proof (manhattan_zero n goal_node Hgoal) as Hh.
    destruct Hinv as [[-> ->]|Hfi].
    + injection Hpop as <- <-.
      destruct (reached_walk pf goal_node snake_body start_node start_node
                  start_root start_g (reached_start _ _ _ _)) as (_ & _ & Hlen & _).
      cbn zeta in Hlen. lia.
    + pose proof (frontier_pop _ _ _ _ Hfi Hpop) as Hm.
      assert (Hreached : reached pf goal_node snake_body start_node n).
      { apply (inv_reached _ _ _ _ _ _ (fi_inv _ _ _ _ _ _ Hfi)), in_app_iff. left.
        apply (Permutation_in _ (symmetry (heappop_perm _ _ _ Hpop))). by left. }
      destruct (reached_walk pf goal_node snake_body start_node n
                  start_root start_g Hreached) as (_ & _ & Hlen & _).
      cbn zeta in Hlen. lia.
  - destruct Hres as [[[=] _]|Hfi].
    destruct (frontier_has_best _ _ Hfi) as (n & [] & _).
Qed.
End obstacle_free.

(** ** Completeness of the search *)

Section completeness.
Variables (pf : AStarPathfinder) (goal_node : Node) (snake_body : list (Z * Z))
          (start_node : Node).

Lemma seen_cells_grow open_set closed_set m open_set' c :
  heapq.heappop open_set = Some (m, open_set') ->
  In c (map cell_of (open_set ++ closed_set)) ->
  In c (map cell_of
          (expand pf goal_node snake_body (m :: closed_set) m open_set'
           ++ m :: closed_set)).
Proof.
  intros Hpop (n & <- & Hn)%in_map_iff. apply in_map, in_app_iff.
  apply in_app_iff in Hn as [Hn|Hn]; [|right; by right].
  apply (Permutation_in _ (heappop_perm _ _ _ Hpop)) in Hn as [<-|Hn].
  - right. by left.
  - left. by apply fold_visit_incl.
Qed.

Lemma closure_inv_init :
  closure_inv pf goal_node snake_body start_node (heapq.heappush [] start_node) [].
Proof.
  split; [apply search_inv_init | by left | by intros c [] | by intros c nb []].
Qed.

Lemma closure_inv_step open_set closed_set m open_set' :
  closure_inv pf goal_node snake_body start_node open_set closed_set ->
  heapq.heappop open_set = Some (m, open_set') ->
  Node_eq m goal_node = false ->
  closure_inv pf goal_node snake_body start_node
    (expand pf goal_node snake_body (m :: closed_set) m open_set')
    (m :: closed_set).
Proof.
  intros [Hinv Hstart Hnongoal Hclosed] Hpop Hmgoal. split.
  - by eapply search_inv_step.
  - by apply (seen_cells_grow open_set).
  - intros c [<-|Hc]; [done | by apply Hnongoal].
  - intros c nb [<-|Hc] Hnb Hsafe.
    + rewrite map_app, in_app_iff.
      destruct (in_dec (fun a b : Z * Z => decide (a = b)) (cell_of nb)
                       (map cell_of (m :: closed_set))) as [Hin|Hout]; [by right|].
      left. by apply fold_visit_covers.
    + apply (seen_cells_grow open_set); [done|]. by apply (Hclosed c).
Qed.

(** When the open set is empty, every cell of a free walk from the start
    cell is closed. *)
Lemma closure_covers_walk closed_set cells :
  closure_inv pf goal_node snake_body start_node [] closed_set ->
  free_walk pf snake_body cells ->
  nth_error cells 0 = Some (cell_of start_node) ->
  forall i c, nth_error cells i = Some c -> In c (map cell_of closed_set).
Proof.
  intros [_ Hstart _ Hclosed] [Hsteps Hcells] Hfirst. simpl in Hstart, Hclosed.
  induction i as [|i IH]; intros c Hc.
  - rewrite Hfirst in Hc. by injection Hc as <-.
  - destruct (nth_error cells i) as [a|] eqn:Ha.
    2:{ apply nth_error_None in Ha.
        assert (Hsome : nth_error cells (S i) <> None) by congruence.
        apply nth_error_Some in Hsome. lia. }
    pose proof (IH a eq_refl) as (n & Hcell & Hn)%in_map_iff.
    destruct (Hsteps i a c Ha Hc) as (d & Hd & ->).
    destruct (Hcells (S i) _ ltac:(lia) Hc) as [Hb Hfree].
    subst a.
    apply (Hclosed n (Node_init (node_x n + fst d) (node_y n + snd d)) Hn).
    + apply get_neighbors_In. exists d. by split.
    + by apply is_safe_position_spec.
Qed.

Lemma search_loop_complete fuel cells :
  (search_fuel pf <= fuel)%nat ->
  free_walk pf snake_body cells ->
  connects cells (cell_of start_node) (cell_of goal_node) ->
  exists path closed_set,
    search_loop pf goal_node snake_body fuel (heapq.heappush [] start_node) []
    = (Returned (Some path), closed_set).
Proof.
  intros Hfuel Hwalk [Hfirst Hlast].
  destruct (search_returns pf goal_node snake_body start_node fuel _ []
              (search_inv_init pf goal_node snake_body start_node) ltac:(simpl; lia))
    as (r & closed_set & Hrun).
  destruct r as [path|]; [by exists path, closed_set|]. exfalso.
  pose proof (search_loop_inv pf goal_node snake_body
                (closure_inv pf goal_node snake_body start_node)
                closure_inv_step fuel _ [] closure_inv_init) as Hres.
  rewrite Hrun in Hres.
  pose proof (closure_covers_walk closed_set cells Hres Hwalk Hfirst _ _ Hlast)
    as (n & Hcell & Hn)%in_map_iff.
  apply Node_eq_cell in Hcell.
  by rewrite (ci_nongoal _ _ _ _ _ _ Hres n Hn) in Hcell.
Qed.
End completeness.

(** The search returns a path exactly when a free walk leads from the start
    cell to the goal cell. *)
Lemma find_path_complete pf start_pos goal_pos snake_body :
  (exists path, find_path pf start_pos goal_pos snake_body = Some path) <->
  (exists cells, free_walk pf snake_body cells /\
     connects cells (pixel_to_grid pf start_pos) (pixel_to_grid pf goal_pos)).
Proof.
  split.
  - intros (path & (cells & _ & Hfirst & Hlast & Hsteps & Hcells)%find_path_cells).
    exists cells. split; [split; [done|] | done].
    intros i [x y] Hi Ha. destruct (Hcells i _ Hi Ha) as [Hb Hsafe].
    split; [done | by apply is_safe_position_spec].
  - intros (cells & Hwalk & Hconn).
    destruct (search_loop_complete pf (goal_node_of pf goal_pos) snake_body
                (start_node_of pf start_pos) (search_fuel pf) cells ltac:(lia)
                Hwalk Hconn) as (path & closed_set & Hrun).
    exists path. unfold find_path, find_path_from. by rewrite Hrun.
Qed.

Lemma search_fuel_pos pf : exists fuel, search_fuel pf = S fuel.
Proof. unfold search_fuel. exists (Z.to_nat (grid_cols pf) * Z.to_nat (grid_rows pf) + 1)%nat. lia. Qed.

(** Start and goal on one cell: the path is that cell alone. *)
Lemma find_path_same_cell pf start_pos goal_pos snake_body :
  pixel_to_grid pf start_pos = pixel_to_grid pf goal_pos ->
  find_path pf start_pos goal_pos snake_body
  = Some [grid_to_pixel pf (pixel_to_grid pf start_pos)].
Proof.
  intros Hsame. unfold find_path, find_path_from.
  destruct (search_fuel_pos pf) as [fuel ->].
  change (heapq.heappush [] (start_node_of pf start_pos)) with [start_node_of pf start_pos].
  cbn [search_loop heapq.heappop removelast List.last].
  assert (Hgoal : Node_eq (start_node_of pf start_pos) (goal_node_of pf goal_pos) = true).
  { apply Node_eq_cell. by rewrite cell_of_start_node, cell_of_goal_node. }
  by rewrite Hgoal.
Qed.

(** * The claims *)

(** ** Grid mapper *)

(** C9. The two conversions of the grid mapper are mutually inverse: for
    every cell [c], [pixel_to_grid (grid_to_pixel c) = c], and for every pixel
    position [p] whose coordinates are multiples of the cell size,
    [grid_to_pixel (pixel_to_grid p) = p]. *)
Theorem grid_mapper_round_trip (pf : AStarPathfinder) :
  cell_size pf <> 0 ->
  (forall c, pixel_to_grid pf (grid_to_pixel pf c) = c) /\
  (forall p, fst p mod cell_size pf = 0 -> snd p mod cell_size pf = 0 ->
     grid_to_pixel pf (pixel_to_grid pf p) = p).
Proof.
  intros Hcs. split; [intros c; by apply pixel_grid_pixel|].
  intros [x y] Hx Hy. unfold grid_to_pixel, pixel_to_grid. simpl in *.
  f_equal.
  - rewrite Z.mul_comm. symmetry. by apply Z.div_exact.
  - rewrite Z.mul_comm. symmetry. by apply Z.div_exact.
Qed.

Lemma grid_mapper_round_trip_witness :
  cell_size (pathfinder game_ai) <> 0 /\
  pixel_to_grid (pathfinder game_ai) (grid_to_pixel (pathfinder game_ai) (15, 5)) = (15, 5) /\
  grid_to_pixel (pathfinder game_ai) (pixel_to_grid (pathfinder game_ai) (150, 50)) = (150, 50).
Proof.
  assert (H : cell_size (pathfinder game_ai) <> 0) by (simpl; lia).
  split; [exact H|]. split.
  - apply (proj1 (grid_mapper_round_trip (pathfinder game_ai) H)).
  - apply (proj2 (grid_mapper_round_trip (pathfinder game_ai) H)); reflexivity.
Defined.

(** ** Direction changes *)

Lemma SnakeGame_validate_cases change_to direction :
  SnakeGame.validate change_to direction
  = if Direction_eqb change_to (opposite direction) then direction else change_to.
Proof. by destruct change_to, direction. Qed.

Lemma SnakePy_validate_cases change_to direction :
  SnakePy.validate change_to direction
  = if Direction_eqb change_to (opposite direction) then direction else change_to.
Proof. by destruct change_to, direction. Qed.

Lemma Direction_eqb_eq a b : Direction_eqb a b = true <-> a = b.
Proof. by destruct a, b. Qed.

(** C8. In every tick of either driver, a requested direction that is the
    exact opposite of the current one is ignored and the current direction is
    kept; so the direction after a tick is never the opposite of the
    direction before it. *)
Theorem no_reversal_in_a_tick :
  (forall (g : SnakeGame.t) (rx ry : Z),
     let g' := fst (SnakeGame.tick g rx ry) in
     (SnakeGame.requested g = opposite (SnakeGame.direction g) ->
      SnakeGame.direction g' = SnakeGame.direction g) /\
     SnakeGame.direction g' <> opposite (SnakeGame.direction g)) /\
  (forall (g : SnakePy.t) (rx ry : Z),
     let g' := fst (SnakePy.tick g rx ry) in
     (SnakePy.change_to g = opposite (SnakePy.direction g) ->
      SnakePy.direction g' = SnakePy.direction g) /\
     SnakePy.direction g' <> opposite (SnakePy.direction g)).
Proof.
  split; intros g rx ry; cbn.
  - rewrite SnakeGame_validate_cases.
    destruct (SnakeGame.requested g), (SnakeGame.direction g); by cbn.
  - rewrite SnakePy_validate_cases.
    destruct (SnakePy.change_to g), (SnakePy.direction g); by cbn.
Qed.

(** ** Food *)

Lemma fruit_draw_spec rx ry :
  fruit_draw rx ry = true <-> (1 <= rx <= 71 /\ 1 <= ry <= 47).
Proof.
  unfold fruit_draw, randrange.
  change (window_x / 10) with 72. change (window_y / 10) with 48.
  rewrite !andb_true_iff, !Z.leb_le, !Z.ltb_lt. lia.
Qed.

Lemma new_fruit_cell rx ry :
  pixel_to_grid (pathfinder game_ai) (new_fruit_position rx ry) = (rx, ry).
Proof.
  unfold pixel_to_grid, new_fruit_position. simpl. by rewrite !Z.div_mul.
Qed.

(** C6, as the code has it. A newly spawned food position is drawn by
    [random.randrange] from the cells with column 1..71 and row 1..47: every
    spawn result is one of these cells (so it is in bounds), each of them is a
    possible spawn result, the cells of column 0 and of row 0 are never
    spawned, and the snake body is not looked at (the new food can lie on
    it). *)
Theorem food_spawn_cells :
  (forall c,
     (exists rx ry, fruit_draw rx ry = true /\
        pixel_to_grid (pathfinder game_ai) (new_fruit_position rx ry) = c)
     <-> (1 <= fst c <= 71 /\ 1 <= snd c <= 47)) /\
  (forall rx ry, fruit_draw rx ry = true ->
     in_bounds (pathfinder game_ai)
       (pixel_to_grid (pathfinder game_ai) (new_fruit_position rx ry)) = true) /\
  (forall g rx ry,
     cell_eqb (SnakeGame.snake_position g) (SnakeGame.fruit_position g) = true ->
     SnakeGame.fruit_position (SnakeGame.check_food_collision g rx ry)
     = new_fruit_position rx ry) /\
  (forall g rx ry,
     cell_eqb (SnakePy.snake_position (fst (SnakePy.tick g rx ry)))
              (SnakePy.fruit_position g) = true ->
     SnakePy.fruit_position (fst (SnakePy.tick g rx ry))
     = new_fruit_position rx ry) /\
  (exists g rx ry,
     fruit_draw rx ry = true /\
     let g' := fst (SnakeGame.tick g rx ry) in
     SnakeGame.fruit_position g' = new_fruit_position rx ry /\
     In (SnakeGame.fruit_position g') (SnakeGame.snake_body g')).
Proof.
  split; [|split; [|split; [|split]]].
  - intros [x y]. simpl. split.
    + intros (rx & ry & Hdraw & Hcell). rewrite new_fruit_cell in Hcell.
      injection Hcell as -> ->. by apply fruit_draw_spec.
    + intros Hrange. exists x, y. split; [by apply fruit_draw_spec | apply new_fruit_cell].
  - intros rx ry Hdraw%fruit_draw_spec. rewrite new_fruit_cell.
    unfold in_bounds. simpl. change (window_x / 10) with 72. change (window_y / 10) with 48.
    rewrite !andb_true_iff, !Z.leb_le, !Z.ltb_lt. lia.
  - intros g rx ry Heaten. unfold SnakeGame.check_food_collision. simpl.
    by rewrite Heaten.
  - intros g rx ry Heaten. simpl in *. by rewrite Heaten.
  - exists (SnakeGame.reset_game SnakeGame.MANUAL_MODE 11 5), 11, 5.
    split; [reflexivity|]. split; [reflexivity|]. simpl. tauto.
Qed.

(** C6 as stated fails: cell (0, 5) is inside the 72 x 48 grid, and no draw
    of [random.randrange] spawns food on it. *)
Lemma food_never_in_column_zero :
  in_bounds (pathfinder game_ai) (0, 5) = true /\
  ~ exists rx ry, fruit_draw rx ry = true /\
      pixel_to_grid (pathfinder game_ai) (new_fruit_position rx ry) = (0, 5).
Proof.
  split; [reflexivity|].
  intros (rx & ry & Hdraw%fruit_draw_spec & Hcell).
  rewrite new_fruit_cell in Hcell. injection Hcell as -> ->. lia.
Qed.

(** ** The move policy *)

Lemma second_cell_spec path c :
  second_cell path = Some c <->
  exists p, path = Some p /\ (2 <= length p)%nat /\ nth_error p 1 = Some c.
Proof.
  split.
  - destruct path as [[|a [|b p]]|]; simpl; try done.
    intros [= ->]. exists (a :: c :: p). simpl. split; [done|]. split; [lia | done].
  - intros ([|a [|b p]] & -> & Hlen & Hnth); simpl in *; try lia. by injection Hnth as ->.
Qed.

Lemma second_cell_None path :
  second_cell path = None <->
  (path = None \/ exists p, path = Some p /\ (length p < 2)%nat).
Proof.
  split.
  - destruct path as [[|a [|b p]]|]; simpl; try done.
    + intros _. right. exists []. simpl. split; [done | lia].
    + intros _. right. exists [a]. simpl. split; [done | lia].
    + by left.
  - intros [->|([|a [|b p]] & -> & Hlen)]; simpl in *; try done. lia.
Qed.

Lemma move_is_safe_spec ai snake_head snake_body direction :
  move_is_safe ai snake_head snake_body direction = true <->
  free_move ai snake_head snake_body direction.
Proof.
  unfold move_is_safe, free_move, target_cell.
  rewrite andb_true_iff, is_safe_position_spec.
  by destruct (pixel_to_grid _ _).
Qed.

(** The last-resort scan: the first of UP, DOWN, LEFT, RIGHT that is free,
    RIGHT when none is. *)
Lemma make_safe_move_spec ai snake_head snake_body :
  let d := _make_safe_move ai snake_head snake_body in
  (exists before after,
     [UP; DOWN; LEFT; RIGHT] = before ++ d :: after /\
     free_move ai snake_head snake_body d /\
     forall d', In d' before -> ~ free_move ai snake_head snake_body d')
  \/
  (d = RIGHT /\
   forall d', ~ free_move ai snake_head snake_body d').
Proof.
  cbn zeta. unfold _make_safe_move. simpl.
  pose proof (move_is_safe_spec ai snake_head snake_body) as Hspec.
  destruct (move_is_safe ai snake_head snake_body UP) eqn:EU.
  { left. exists [], [DOWN; LEFT; RIGHT]. split; [done|].
    split; [by apply Hspec | by intros d' []]. }
  destruct (move_is_safe ai snake_head snake_body DOWN) eqn:ED.
  { left. exists [UP], [LEFT; RIGHT]. split; [done|]. split; [by apply Hspec|].
    intros d' [<-|[]]. rewrite <- Hspec. congruence. }
  destruct (move_is_safe ai snake_head snake_body LEFT) eqn:EL.
  { left. exists [UP; DOWN], [RIGHT]. split; [done|]. split; [by apply Hspec|].
    intros d' [<-|[<-|[]]]; rewrite <- Hspec; congruence. }
  destruct (move_is_safe ai snake_head snake_body RIGHT) eqn:ER.
  { left. exists [UP; DOWN; LEFT], []. split; [done|]. split; [by apply Hspec|].
    intros d' [<-|[<-|[<-|[]]]]; rewrite <- Hspec; congruence. }
  right. split; [done|]. intros []; rewrite <- Hspec; congruence.
Qed.

(** C5. The policy does not take its fallbacks as stated. In the state below,
    a state as the main loop keeps them, no walk through free cells leads from
    the head to the food, and none leads to the tail when the tail alone is
    left out of the obstacles. Of UP, DOWN, LEFT, RIGHT the first that moves
    the head to a cell in bounds and outside the tail-ignored obstacle set is
    LEFT, and LEFT is what the last-resort scan returns. The policy returns
    RIGHT all the same: the search for the tail leaves the last two segments
    out of its obstacles and returns a path whose second position is the
    second-to-last segment, a cell of the tail-ignored obstacle set. *)
Theorem tail_step_taken_without_a_tail_path :
  let g :=
    {| SnakeGame.snake_ai := game_ai;
       SnakeGame.snake_position := (10, 0);
       SnakeGame.snake_body :=
         [(10, 0); (10, 10); (0, 10); (0, 20); (10, 20); (20, 20); (20, 10); (20, 0);
          (30, 0)];
       SnakeGame.fruit_position := (80, 10);
       SnakeGame.fruit_spawn := true;
       SnakeGame.direction := UP;
       SnakeGame.change_to := UP;
       SnakeGame.score := 50;
       SnakeGame.game_mode := SnakeGame.AI_MODE |} in
  let pf := pathfinder game_ai in
  let head := SnakeGame.snake_position g in
  let body := SnakeGame.snake_body g in
  let food := SnakeGame.fruit_position g in
  let tail := List.last body (0, 0) in
  let obstacles := snake_grid_positions pf body true in
  let cell_after (d : Direction) := pixel_to_grid pf (move_pos head d) in
  let free (d : Direction) :=
    in_bounds pf (cell_after d) = true /\ ~ In (cell_after d) obstacles in
  (game_inv g /\ alive g /\ ~ In food body) /\
  obstacles = [(1, 0); (1, 1); (0, 1); (0, 2); (1, 2); (2, 2); (2, 1); (2, 0)] /\
  (~ exists cells, free_walk pf body cells /\
       connects cells (pixel_to_grid pf head) (pixel_to_grid pf food)) /\
  (~ exists cells, free_walk pf body cells /\
       connects cells (pixel_to_grid pf head) (pixel_to_grid pf tail)) /\
  (~ free UP /\ ~ free DOWN /\ free LEFT) /\
  _make_safe_move game_ai head body = LEFT /\
  find_safe_path_to_tail pf head body = Some [(10, 0); (20, 0); (30, 0)] /\
  get_next_move game_ai head food body = RIGHT /\
  cell_after RIGHT = (2, 0) /\ In (cell_after RIGHT) obstacles.
Proof.
  cbn zeta.
  split; [|split; [|split; [|split; [|split; [|split; [|split; [|split; [|split]]]]]]]].
  - split; [|split].
    + split; simpl.
      * done.
      * eexists _, _. split; [reflexivity|]. split; [reflexivity | simpl; lia].
      * intros i a b Ha Hb.
        do 9 (destruct i as [|i];
              [simpl in Ha, Hb; try discriminate Hb;
               injection Ha as <-; injection Hb as <-;
               unfold one_move_apart; simpl; lia|]).
        by destruct i.
      * repeat constructor.
      * by split.
      * done.
      * done.
    + split; simpl.
      * unfold window_x, window_y. lia.
      * repeat constructor; simpl; intros H; repeat destruct H as [H|H]; done.
    + simpl. intros H; repeat destruct H as [H|H]; done.
  - by vm_compute.
  - rewrite <- find_path_complete. intros [path Hpath].
    vm_compute in Hpath. discriminate Hpath.
  - rewrite <- find_path_complete. intros [path Hpath].
    vm_compute in Hpath. discriminate Hpath.
  - split; [|split].
    + intros [Hin _]. vm_compute in Hin. discriminate Hin.
    + intros [_ Hout]. apply Hout. vm_compute. tauto.
    + split; [reflexivity|]. vm_compute. intros H; repeat destruct H as [H|H]; done.
  - by vm_compute.
  - by vm_compute.
  - by vm_compute.
  - by vm_compute.
  - vm_compute. tauto.
Qed.

(** ** Obstacles *)

Lemma removelast_length {A} (l : list A) : length (removelast l) = (length l - 1)%nat.
Proof.
  induction l as [|a [|b l] IH]; simpl in *; try done. rewrite IH. lia.
Qed.

Lemma removelast_map {A B} (f : A -> B) (l : list A) :
  removelast (map f l) = map f (removelast l).
Proof. induction l as [|a [|b l] IH]; simpl in *; try done. by rewrite IH. Qed.

(** The obstacle cells [is_safe_position] uses with the tail ignored: all
    segments but the last, when there is more than one. *)
Lemma snake_grid_positions_ignore_tail pf snake_body :
  snake_grid_positions pf snake_body true
  = map (pixel_to_grid pf)
        (if (2 <=? length snake_body)%nat then removelast snake_body else snake_body).
Proof.
  unfold snake_grid_positions. rewrite length_map. cbn [andb].
  destruct (Nat.leb_spec 2 (length snake_body)) as [Hle|Hgt].
  - destruct (Z.ltb_spec 1 (Z.of_nat (length snake_body))); [apply removelast_map | lia].
  - destruct (Z.ltb_spec 1 (Z.of_nat (length snake_body))); [lia | done].
Qed.

(** The obstacles of the search to the tail: [find_path] gets the body
    without its tail and drops the last segment of that once more, so a body
    of 3 or more segments loses its last two. *)
Lemma tail_search_obstacle_cells pf snake_head snake_body :
  (2 <= length snake_body)%nat ->
  find_safe_path_to_tail pf snake_head snake_body
    = find_path pf snake_head (List.last snake_body (0, 0)) (removelast snake_body) /\
  snake_grid_positions pf (removelast snake_body) true
    = map (pixel_to_grid pf)
          (if (3 <=? length snake_body)%nat
           then removelast (removelast snake_body) else removelast snake_body).
Proof.
  intros Hlen. split.
  - unfold find_safe_path_to_tail.
    by destruct (Z.ltb_spec (Z.of_nat (length snake_body)) 2); [lia|].
  - rewrite snake_grid_positions_ignore_tail, removelast_length.
    destruct (Nat.leb_spec 3 (length snake_body)), (Nat.leb_spec 2 (length snake_body - 1));
      (done || lia).
Qed.

(** C2, at a snake of three segments in a row. The search to the tail runs
    with the cell of the head as its only obstacle: the middle segment, at
    cell (9, 5), is dropped with the tail, and the path returned goes through
    it. *)
Theorem tail_search_drops_two_segments :
  let pf := pathfinder game_ai in
  let snake_body := [(100, 50); (90, 50); (80, 50)] in
  snake_grid_positions pf (removelast snake_body) true = [(10, 5)] /\
  map (pixel_to_grid pf) (removelast snake_body) = [(10, 5); (9, 5)] /\
  find_safe_path_to_tail pf (100, 50) snake_body
    = Some [(100, 50); (90, 50); (80, 50)].
Proof. by vm_compute. Qed.

(** C1, as the code has it. In every invocation of the path search, a
    generated in-bounds neighbour that lies in the obstacle set (computed with
    the tail ignored) is skipped, whether it is the goal cell or not: the open
    set stays as it is. So the goal is entered only when it is outside that
    set: a search from another cell that returns a path has its goal cell
    outside the obstacle set. *)
Theorem obstacle_neighbor_skipped :
  (forall (pf : AStarPathfinder) (goal_node : Node) (snake_body : list (Z * Z))
          (closed_set : list Node) (current_node : Node) (open_set : list Node)
          (neighbor : Node),
     In neighbor (get_neighbors pf current_node) ->
     In (cell_of neighbor) (snake_grid_positions pf snake_body true) ->
     visit_neighbor pf goal_node snake_body closed_set current_node open_set neighbor
     = open_set) /\
  (forall (pf : AStarPathfinder) (start_pos goal_pos : Z * Z)
          (snake_body path : list (Z * Z)),
     find_path pf start_pos goal_pos snake_body = Some path ->
     pixel_to_grid pf start_pos <> pixel_to_grid pf goal_pos ->
     ~ In (pixel_to_grid pf goal_pos) (snake_grid_positions pf snake_body true)).
Proof.
  split.
  - intros pf goal_node snake_body closed_set current_node open_set neighbor _ Hobstacle.
    unfold visit_neighbor.
    destruct (in_closed neighbor closed_set); [done|].
    destruct (is_safe_position pf _ _ snake_body true) eqn:Esafe; [|done].
    apply is_safe_position_spec in Esafe. by destruct Esafe.
  - intros pf start_pos goal_pos snake_body path
      (cells & _ & Hfirst & Hlast & _ & Hcells)%find_path_cells Hne.
    destruct (decide (length cells - 1 = 0)%nat) as [Hlen|Hlen].
    { rewrite Hlen in Hlast. congruence. }
    destruct (Hcells (length cells - 1)%nat _ ltac:(lia) Hlast)
      as [_ Hsafe%is_safe_position_spec].
    by destruct (pixel_to_grid pf goal_pos).
Qed.

Lemma obstacle_neighbor_skipped_witness :
  let pf := pathfinder game_ai in
  let goal_node := goal_node_of pf (90, 50) in
  let current_node := start_node_of pf (100, 50) in
  Node_eq (Node_init 9 5) goal_node = true /\
  visit_neighbor pf goal_node initial_body [current_node] current_node [] (Node_init 9 5)
  = [].
Proof.
  split; [reflexivity|].
  apply (proj1 obstacle_neighbor_skipped); vm_compute; tauto.
Defined.

(** C1 as stated fails. With the snake of [reset_game] and food on its second
    segment, the left neighbour of the head is the goal cell, is in bounds and
    not closed, and lies in the obstacle set; it is not entered (the open set
    stays empty), and the search returns no path. *)
Lemma goal_cell_not_exempt :
  let pf := pathfinder game_ai in
  let goal_node := goal_node_of pf (90, 50) in
  let current_node := start_node_of pf (100, 50) in
  let neighbor := Node_init 9 5 in
  In neighbor (get_neighbors pf current_node) /\
  Node_eq neighbor goal_node = true /\
  in_closed neighbor [current_node] = false /\
  In (cell_of neighbor) (snake_grid_positions pf initial_body true) /\
  ~ In (cell_of neighbor)
       (map cell_of (visit_neighbor pf goal_node initial_body [current_node]
                                    current_node [] neighbor)) /\
  find_path pf (100, 50) (90, 50) initial_body = None.
Proof.
  split; [vm_compute; tauto|]. split; [reflexivity|]. split; [reflexivity|].
  split; [vm_compute; tauto|]. split; [vm_compute; tauto|]. by vm_compute.
Qed.

(** ** The path search *)

(** C7. For every start, goal, body and grid, the path search terminates:
    within [search_fuel pf] iterations of its loop (and with any larger
    budget) it returns, a path or no path, the latter with the open set empty;
    and no cell is popped from the open set more than once: the closed set the
    loop leaves, which holds the popped nodes, has no cell twice. *)
Theorem search_terminates (pf : AStarPathfinder) (start_pos goal_pos : Z * Z)
    (snake_body : list (Z * Z)) :
  exists r closed_set,
    (forall fuel, (search_fuel pf <= fuel)%nat ->
       find_path_from pf fuel start_pos goal_pos snake_body = (Returned r, closed_set)) /\
    find_path pf start_pos goal_pos snake_body = r /\
    List.NoDup (map cell_of closed_set) /\
    (r = None ->
     search_inv pf (goal_node_of pf goal_pos) snake_body (start_node_of pf start_pos)
                [] closed_set).
Proof.
  destruct (find_path_outcome pf start_pos goal_pos snake_body)
    as (r & closed_set & Hfrom & Hfind & Hnodup & Hres).
  exists r, closed_set. split; [done|]. split; [done|]. split; [done|].
  by intros ->.
Qed.

Lemma nth_error_map_Some {A B} (f : A -> B) (l : list A) i b :
  nth_error (map f l) i = Some b -> exists a, nth_error l i = Some a /\ b = f a.
Proof.
  rewrite nth_error_map. destruct (nth_error l i) as [a|]; [|done].
  intros [= <-]. by exists a.
Qed.

(** C10. Every path the search returns is a connected walk on the grid: two
    consecutive positions differ by exactly one cell size (10 pixels for the
    pathfinder of the game) in one coordinate and agree in the other, and
    every cell of the path after the first is within the grid bounds. *)
Theorem returned_path_is_grid_walk (pf : AStarPathfinder)
    (start_pos goal_pos : Z * Z) (snake_body path : list (Z * Z)) :
  0 < cell_size pf ->
  find_path pf start_pos goal_pos snake_body = Some path ->
  (forall i a b, nth_error path i = Some a -> nth_error path (S i) = Some b ->
     (Z.abs (fst b - fst a) = cell_size pf /\ snd b = snd a) \/
     (fst b = fst a /\ Z.abs (snd b - snd a) = cell_size pf)) /\
  (forall i a, (1 <= i)%nat -> nth_error path i = Some a ->
     in_bounds pf (pixel_to_grid pf a) = true).
Proof.
  intros Hcs (cells & -> & _ & _ & Hsteps & Hcells)%find_path_cells. split.
  - intros i a b (ca & Ha & ->)%nth_error_map_Some (cb & Hb & ->)%nth_error_map_Some.
    destruct (Hsteps i ca cb Ha Hb) as (d & Hd & ->).
    unfold grid_to_pixel. simpl.
    destruct Hd as [<-|[<-|[<-|[<-|[]]]]]; simpl; [left|left|right|right]; split; nia.
  - intros i a Hi (c & Hc & ->)%nth_error_map_Some.
    rewrite pixel_grid_pixel by lia. by apply (Hcells i).
Qed.

Lemma returned_path_is_grid_walk_witness :
  let path := [(100, 50); (110, 50); (120, 50); (130, 50); (140, 50); (150, 50)] in
  find_path (pathfinder game_ai) (100, 50) (150, 50) initial_body = Some path /\
  (forall i a b, nth_error path i = Some a -> nth_error path (S i) = Some b ->
     (Z.abs (fst b - fst a) = 10 /\ snd b = snd a) \/
     (fst b = fst a /\ Z.abs (snd b - snd a) = 10)) /\
  (forall i a, (1 <= i)%nat -> nth_error path i = Some a ->
     in_bounds (pathfinder game_ai) (pixel_to_grid (pathfinder game_ai) a) = true).
Proof.
  assert (Hfind : find_path (pathfinder game_ai) (100, 50) (150, 50) initial_body
                  = Some [(100, 50); (110, 50); (120, 50); (130, 50); (140, 50); (150, 50)])
    by (vm_compute; reflexivity).
  split; [exact Hfind|].
  apply (returned_path_is_grid_walk (pathfinder game_ai) (100, 50) (150, 50) initial_body);
    [simpl; lia | exact Hfind].
Defined.

(** C4, as the code has it. For every search that returns a path, no cell of
    the path other than its first is in the obstacle set of that search (the
    cells of the body, tail ignored); the goal cell is among the cells so
    checked. The first cell, the start, is never checked. *)
Theorem returned_path_avoids_obstacles (pf : AStarPathfinder)
    (start_pos goal_pos : Z * Z) (snake_body path : list (Z * Z)) :
  cell_size pf <> 0 ->
  find_path pf start_pos goal_pos snake_body = Some path ->
  forall i a, (1 <= i)%nat -> nth_error path i = Some a ->
    ~ In (pixel_to_grid pf a) (snake_grid_positions pf snake_body true).
Proof.
  intros Hcs (cells & -> & _ & _ & _ & Hcells)%find_path_cells.
  intros i a Hi (c & Hc & ->)%nth_error_map_Some.
  rewrite pixel_grid_pixel by done.
  destruct (Hcells i c Hi Hc) as [_ Hsafe%is_safe_position_spec].
  by destruct c.
Qed.

Lemma returned_path_avoids_obstacles_witness :
  find_path (pathfinder game_ai) (100, 50) (150, 50) initial_body
    = Some [(100, 50); (110, 50); (120, 50); (130, 50); (140, 50); (150, 50)] /\
  ~ In (pixel_to_grid (pathfinder game_ai) (110, 50))
       (snake_grid_positions (pathfinder game_ai) initial_body true).
Proof.
  assert (Hfind : find_path (pathfinder game_ai) (100, 50) (150, 50) initial_body
                  = Some [(100, 50); (110, 50); (120, 50); (130, 50); (140, 50); (150, 50)])
    by (vm_compute; reflexivity).
  split; [exact Hfind|].
  apply (returned_path_avoids_obstacles (pathfinder game_ai) (100, 50) (150, 50)
           initial_body _ ltac:(simpl; lia) Hfind 1%nat); [lia | reflexivity].
Defined.

(** C4 as stated fails. From the head of the snake of [reset_game] to food
    five cells to its right, the search returns a path whose start cell
    (10, 5) is not the goal cell and is in the obstacle set of the search. *)
Lemma start_cell_is_an_obstacle :
  let pf := pathfinder game_ai in
  exists path a,
    find_path pf (100, 50) (150, 50) initial_body = Some path /\
    In a path /\
    pixel_to_grid pf a <> pixel_to_grid pf (150, 50) /\
    In (pixel_to_grid pf a) (snake_grid_positions pf initial_body true).
Proof.
  exists [(100, 50); (110, 50); (120, 50); (130, 50); (140, 50); (150, 50)], (100, 50).
  split; [by vm_compute|]. split; [by left|]. split; [by vm_compute|].
  vm_compute. tauto.
Qed.

Lemma find_path_optimal pf start_pos goal_pos snake_body :
  in_bounds pf (pixel_to_grid pf start_pos) = true ->
  in_bounds pf (pixel_to_grid pf goal_pos) = true ->
  (forall c, In c (snake_grid_positions pf snake_body true) ->
     c = pixel_to_grid pf start_pos) ->
  exists path,
    find_path pf start_pos goal_pos snake_body = Some path /\
    Z.of_nat (length path)
    = cell_distance (pixel_to_grid pf start_pos) (pixel_to_grid pf goal_pos) + 1.
Proof.
  intros Hstart Hgoal Hfree.
  destruct (search_loop_optimal pf (goal_node_of pf goal_pos) snake_body
              (start_node_of pf start_pos) eq_refl eq_refl Hstart Hgoal Hfree
              (search_fuel pf) ltac:(lia)) as (n & closed_set & Hrun & Hlen).
  exists (_reconstruct_path pf n). split.
  - unfold find_path, find_path_from. by rewrite Hrun.
  - rewrite reconstruct_path_cells, length_map. exact Hlen.
Qed.

(** C3. On a grid without obstacles (no cell of the body with the tail
    ignored is an obstacle, but possibly the start cell itself), for every
    start and goal inside the grid the search returns a path whose number of
    cells is the Manhattan distance between start and goal plus 1. In
    particular, on the 72 x 48 grid, from the head at cell (10, 5) to food at
    cell (15, 5), the path has 6 cells and the policy's move is RIGHT. *)
Theorem search_is_optimal_without_obstacles :
  (forall (pf : AStarPathfinder) (start_pos goal_pos : Z * Z)
          (snake_body : list (Z * Z)),
     in_bounds pf (pixel_to_grid pf start_pos) = true ->
     in_bounds pf (pixel_to_grid pf goal_pos) = true ->
     (forall c, In c (snake_grid_positions pf snake_body true) ->
        c = pixel_to_grid pf start_pos) ->
     exists path,
       find_path pf start_pos goal_pos snake_body = Some path /\
       Z.of_nat (length path)
       = cell_distance (pixel_to_grid pf start_pos) (pixel_to_grid pf goal_pos) + 1) /\
  (grid_cols (pathfinder game_ai) = 72 /\ grid_rows (pathfinder game_ai) = 48 /\
   pixel_to_grid (pathfinder game_ai) (100, 50) = (10, 5) /\
   pixel_to_grid (pathfinder game_ai) (150, 50) = (15, 5) /\
   (exists path,
      find_path (pathfinder game_ai) (100, 50) (150, 50) initial_body = Some path /\
      length path = 6%nat) /\
   get_next_move game_ai (100, 50) (150, 50) initial_body = RIGHT).
Proof.
  split; [apply find_path_optimal|].
  split; [reflexivity|]. split; [reflexivity|]. split; [reflexivity|].
  split; [reflexivity|]. split; [|by vm_compute].
  eexists. split; [by vm_compute | reflexivity].
Qed.

Lemma search_is_optimal_without_obstacles_witness :
  let pf := pathfinder game_ai in
  exists path,
    find_path pf (100, 50) (300, 200) [(100, 50); (90, 50)] = Some path /\
    Z.of_nat (length path) = cell_distance (10, 5) (30, 20) + 1.
Proof.
  apply (proj1 search_is_optimal_without_obstacles (pathfinder game_ai)
           (100, 50) (300, 200) [(100, 50); (90, 50)]).
  - reflexivity.
  - reflexivity.
  - intros c [<-|[]]. reflexivity.
Defined.


(** * Further properties of the code *)

(** ** The open set *)

(** X13. The open set of [find_path] is a binary heap ordered by [Node.__lt__]:
    [heappush] adds the node and keeps the heap order; [heappop] fails exactly
    on the empty heap, and otherwise removes one node, of least [f_cost], and
    leaves a heap of the others. *)
Theorem open_set_is_a_priority_queue (heap : list Node) (item : Node) :
  is_heap heap ->
  (is_heap (heapq.heappush heap item) /\
   Permutation (heapq.heappush heap item) (item :: heap)) /\
  (heapq.heappop heap = None <-> heap = []) /\
  (forall top heap', heapq.heappop heap = Some (top, heap') ->
     is_heap heap' /\ Permutation heap (top :: heap') /\
     forall x, In x heap -> f_cost top <= f_cost x).
Proof.
  intros Hheap. split; [|split].
  - split; [by apply heappush_heap | apply heappush_perm].
  - apply heappop_None.
  - intros top heap' Hpop.
    destruct (heappop_heap _ _ _ Hheap Hpop) as [Hheap' Hmin].
    split; [done|]. split; [by apply heappop_perm | done].
Qed.

Lemma open_set_is_a_priority_queue_witness :
  let a := mkNode 1 0 1 4 5 None in
  let b := mkNode 0 1 1 2 3 None in
  let c := mkNode 2 2 3 4 7 None in
  heapq.heappush (heapq.heappush (heapq.heappush [] a) b) c = [b; a; c] /\
  is_heap (heapq.heappush [b; a; c] (mkNode 5 5 0 1 1 None)) /\
  forall top heap', heapq.heappop [b; a; c] = Some (top, heap') -> f_cost top <= f_cost c.
Proof.
  intros a b c.
  assert (Hheap : is_heap [b; a; c]).
  { intros [|[|[|i]]] Hi; simpl in *; try lia. }
  split; [reflexivity|]. split.
  - apply (open_set_is_a_priority_queue [b; a; c] (mkNode 5 5 0 1 1 None) Hheap).
  - intros top heap' Hpop.
    apply (open_set_is_a_priority_queue [b; a; c] (mkNode 5 5 0 1 1 None) Hheap) in Hpop
      as (_ & _ & Hmin).
    apply Hmin. simpl. tauto.
Defined.

(** ** Neighbours and distances *)

(** X6. [get_neighbors] returns exactly the fresh nodes of the cells that are
    inside the grid and at Manhattan distance 1 from the node, at most four of
    them, each cell once; the node itself need not be inside the grid. *)
Theorem get_neighbors_are_adjacent_cells (pf : AStarPathfinder) (node : Node) :
  (forall nb, In nb (get_neighbors pf node) <->
     nb = Node_init (node_x nb) (node_y nb) /\
     in_bounds pf (cell_of nb) = true /\
     cell_distance (cell_of node) (cell_of nb) = 1) /\
  (length (get_neighbors pf node) <= 4)%nat /\
  List.NoDup (map cell_of (get_neighbors pf node)).
Proof.
  split; [|split].
  - intros nb. rewrite get_neighbors_In. split.
    + intros (d & Hd & -> & Hb). split; [done|]. split; [done|].
      unfold cell_distance, cell_of. simpl.
      destruct Hd as [<-|[<-|[<-|[<-|[]]]]]; simpl; lia.
    + intros (Hfresh & Hb & Hdist). unfold cell_distance, cell_of in Hdist. simpl in Hdist.
      exists (node_x nb - node_x node, node_y nb - node_y node). split; [|split; [|done]].
      * unfold directions.
        assert (Hcases : (node_x nb - node_x node = -1 /\ node_y nb - node_y node = 0) \/
                         (node_x nb - node_x node = 1 /\ node_y nb - node_y node = 0) \/
                         (node_x nb - node_x node = 0 /\ node_y nb - node_y node = -1) \/
                         (node_x nb - node_x node = 0 /\ node_y nb - node_y node = 1)) by lia.
        destruct Hcases as [[-> ->]|[[-> ->]|[[-> ->]|[-> ->]]]]; simpl; tauto.
      * rewrite Hfresh at 1. simpl. f_equal; lia.
  - unfold get_neighbors, directions. simpl.
    repeat (destruct (in_bounds pf _)); simpl; lia.
  - unfold get_neighbors, directions. simpl.
    repeat (destruct (in_bounds pf _)); simpl;
      repeat (apply List.NoDup_cons;
              [simpl; unfold cell_of; simpl; intros Hin;
               repeat (destruct Hin as [Hin|Hin]; [injection Hin; intros; lia|]);
               done|]);
      apply List.NoDup_nil.
Qed.

Lemma grid_walk_distance (cells : list (Z * Z)) :
  (forall i a b, nth_error cells i = Some a -> nth_error cells (S i) = Some b ->
     grid_step a b) ->
  forall a b, connects cells a b ->
  cell_distance a b + 1 <= Z.of_nat (length cells).
Proof.
  induction cells as [|c cells IH]; intros Hsteps a b [Hfirst Hlast]; [done|].
  simpl in Hfirst. injection Hfirst as ->.
  destruct cells as [|c' cells].
  { simpl in Hlast. injection Hlast as ->. unfold cell_distance. simpl. lia. }
  assert (Hstep : grid_step a c') by (by apply (Hsteps 0%nat)).
  assert (Hrest : cell_distance c' b + 1 <= Z.of_nat (length (c' :: cells))).
  { apply IH.
    - intros i x y Hx Hy. by apply (Hsteps (S i)).
    - split; [done|]. simpl in *. by rewrite Nat.sub_0_r in *. }
  destruct Hstep as (d & Hd & ->).
  unfold cell_distance in *. cbn [length fst snd] in *.
  destruct Hd as [<-|[<-|[<-|[<-|[]]]]]; simpl in *; lia.
Qed.

(** X4. The Manhattan heuristic never overestimates: a path the search
    returns has at least as many cells as the Manhattan distance between the
    start cell and the goal cell plus 1. *)
Theorem returned_path_is_not_shorter_than_manhattan (pf : AStarPathfinder)
    (start_pos goal_pos : Z * Z) (snake_body path : list (Z * Z)) :
  find_path pf start_pos goal_pos snake_body = Some path ->
  cell_distance (pixel_to_grid pf start_pos) (pixel_to_grid pf goal_pos) + 1
  <= Z.of_nat (length path).
Proof.
  intros (cells & -> & Hfirst & Hlast & Hsteps & _)%find_path_cells.
  rewrite length_map. by apply grid_walk_distance.
Qed.

Lemma returned_path_is_not_shorter_than_manhattan_witness :
  exists path,
    find_path (pathfinder game_ai) (100, 50) (300, 200) initial_body = Some path /\
    cell_distance (10, 5) (30, 20) + 1 <= Z.of_nat (length path).
Proof.
  eexists. split; [vm_compute; reflexivity|].
  apply (returned_path_is_not_shorter_than_manhattan (pathfinder game_ai)
           (100, 50) (300, 200) initial_body).
  vm_compute. reflexivity.
Defined.

(** ** What the search finds *)

(** X1. The search is complete: it returns a path exactly when the goal cell
    can be reached from the start cell by steps between adjacent cells, every
    cell after the first inside the grid and outside the obstacle set (the
    cells of the body, tail ignored). *)
Theorem search_finds_every_reachable_goal (pf : AStarPathfinder)
    (start_pos goal_pos : Z * Z) (snake_body : list (Z * Z)) :
  find_path pf start_pos goal_pos snake_body <> None <->
  exists cells, free_walk pf snake_body cells /\
    connects cells (pixel_to_grid pf start_pos) (pixel_to_grid pf goal_pos).
Proof.
  rewrite <- find_path_complete.
  destruct (find_path pf start_pos goal_pos snake_body) as [path|].
  - split; [by exists path | done].
  - split; [done | by intros [path Hpath]].
Qed.

(** X2. A returned path is never empty; it begins on the corner of the cell
    the start position lies in and ends on the corner of the cell the goal
    position lies in. *)
Theorem returned_path_endpoints (pf : AStarPathfinder)
    (start_pos goal_pos : Z * Z) (snake_body path : list (Z * Z)) :
  find_path pf start_pos goal_pos snake_body = Some path ->
  hd_error path = Some (grid_to_pixel pf (pixel_to_grid pf start_pos)) /\
  List.last path start_pos = grid_to_pixel pf (pixel_to_grid pf goal_pos).
Proof.
  intros (cells & -> & Hfirst & Hlast & _)%find_path_cells.
  destruct cells as [|c cells]; [done|]. simpl in Hfirst. injection Hfirst as ->.
  split; [done|].
  assert (Hl : forall (l : list (Z * Z)) a d, nth_error l (length l - 1) = Some a ->
                 List.last (map (grid_to_pixel pf) l) d = grid_to_pixel pf a).
  { clear. induction l as [|x [|y l] IH]; intros a d Ha; simpl in *; try done.
    - by injection Ha as ->.
    - apply IH. by rewrite Nat.sub_0_r. }
  by apply Hl.
Qed.

Lemma returned_path_endpoints_witness :
  exists path,
    find_path (pathfinder game_ai) (104, 57) (159, 51) initial_body = Some path /\
    hd_error path = Some (100, 50) /\ List.last path (104, 57) = (150, 50).
Proof.
  eexists. split; [vm_compute; reflexivity|].
  apply (returned_path_endpoints (pathfinder game_ai) (104, 57) (159, 51) initial_body).
  vm_compute. reflexivity.
Defined.

(** X14. Start and goal in one cell: the search returns the path of that one
    cell, whatever the obstacles and wherever the cell is, inside the grid or
    not; and only then does a returned path have a single cell. *)
Theorem single_cell_path_iff_same_cell (pf : AStarPathfinder)
    (start_pos goal_pos : Z * Z) (snake_body : list (Z * Z)) :
  (pixel_to_grid pf start_pos = pixel_to_grid pf goal_pos ->
   find_path pf start_pos goal_pos snake_body
   = Some [grid_to_pixel pf (pixel_to_grid pf start_pos)]) /\
  (forall path, find_path pf start_pos goal_pos snake_body = Some path ->
     (length path < 2)%nat ->
     pixel_to_grid pf start_pos = pixel_to_grid pf goal_pos).
Proof.
  split; [apply find_path_same_cell|].
  intros path (cells & -> & Hfirst & Hlast & _)%find_path_cells Hlen.
  rewrite length_map in Hlen.
  destruct cells as [|c [|c' cells]]; simpl in *; [done | congruence | lia].
Qed.

(** X15. A goal outside the grid is never reached: unless the start position
    lies in the same cell, the search returns no path. *)
Theorem goal_outside_grid_has_no_path (pf : AStarPathfinder)
    (start_pos goal_pos : Z * Z) (snake_body : list (Z * Z)) :
  in_bounds pf (pixel_to_grid pf goal_pos) = false ->
  pixel_to_grid pf start_pos <> pixel_to_grid pf goal_pos ->
  find_path pf start_pos goal_pos snake_body = None.
Proof.
  intros Hout Hne.
  destruct (find_path pf start_pos goal_pos snake_body) as [path|] eqn:Hfind; [|done].
  apply find_path_cells in Hfind as (cells & _ & Hfirst & Hlast & _ & Hcells).
  destruct (decide (length cells - 1 = 0)%nat) as [Hlen|Hlen].
  { rewrite Hlen in Hlast. congruence. }
  destruct (Hcells (length cells - 1)%nat _ ltac:(lia) Hlast) as [Hb _]. congruence.
Qed.

Lemma goal_outside_grid_has_no_path_witness :
  find_path {| cell_size := 10; grid_cols := 4; grid_rows := 4 |}
            (10, 10) (40, 10) [(10, 10); (0, 10)] = None.
Proof.
  apply goal_outside_grid_has_no_path; [reflexivity | by vm_compute].
Defined.

(** ** Directions *)

(** X7. [get_next_direction] undoes a move: from any position, the direction
    towards the position one move away in direction [d] is [d]; and moving in
    the direction it gives towards a position 10 pixels away along one axis
    lands on that position. *)
Theorem direction_of_a_move (p : Z * Z) :
  (forall d, get_next_direction p (move_pos p d) = d) /\
  (forall target,
     (Z.abs (fst target - fst p) = 10 /\ snd target = snd p) \/
     (fst target = fst p /\ Z.abs (snd target - snd p) = 10) ->
     move_pos p (get_next_direction p target) = target).
Proof.
  destruct p as [x y]. split.
  - intros d. unfold get_next_direction. destruct d; simpl.
    + destruct (Z.ltb_spec 0 (x - x)), (Z.ltb_spec (x - x) 0),
        (Z.ltb_spec 0 (y - 10 - y)), (Z.ltb_spec (y - 10 - y) 0); (done || lia).
    + destruct (Z.ltb_spec 0 (x - x)), (Z.ltb_spec (x - x) 0),
        (Z.ltb_spec 0 (y + 10 - y)); (done || lia).
    + destruct (Z.ltb_spec 0 (x - 10 - x)), (Z.ltb_spec (x - 10 - x) 0); (done || lia).
    + destruct (Z.ltb_spec 0 (x + 10 - x)); (done || lia).
  - intros [tx ty] Hstep. unfold get_next_direction. simpl in *.
    destruct (Z.ltb_spec 0 (tx - x)); [simpl; f_equal; lia|].
    destruct (Z.ltb_spec (tx - x) 0); [simpl; f_equal; lia|].
    destruct (Z.ltb_spec 0 (ty - y)); [simpl; f_equal; lia|].
    destruct (Z.ltb_spec (ty - y) 0); [simpl; f_equal; lia|]. lia.
Qed.

(** ** Collisions *)

Lemma aligned_in_bounds p :
  aligned p ->
  in_bounds (pathfinder game_ai) (pixel_to_grid (pathfinder game_ai) p) = true <->
  (0 <= fst p <= window_x - 10 /\ 0 <= snd p <= window_y - 10).
Proof.
  destruct p as [x y]. unfold aligned, in_bounds, pixel_to_grid. simpl.
  change (window_x / 10) with 72. change (window_y / 10) with 48.
  change window_x with 720. change window_y with 480.
  intros [Hx Hy]. rewrite !andb_true_iff, !Z.leb_le, !Z.ltb_lt.
  apply Z.div_exact in Hx; [|lia]. apply Z.div_exact in Hy; [|lia]. lia.
Qed.

Lemma check_collisions_false_iff (g : SnakeGame.t) :
  aligned (SnakeGame.snake_position g) ->
  SnakeGame.check_collisions g = false <->
  (in_bounds (pathfinder game_ai)
     (pixel_to_grid (pathfinder game_ai) (SnakeGame.snake_position g)) = true /\
   ~ In (SnakeGame.snake_position g) (tl (SnakeGame.snake_body g))).
Proof.
  intros Halign. rewrite (aligned_in_bounds _ Halign).
  unfold SnakeGame.check_collisions. rewrite !orb_false_iff, !Z.ltb_ge.
  assert (Hbody : existsb (cell_eqb (SnakeGame.snake_position g)) (tl (SnakeGame.snake_body g))
                  = false <->
                  ~ In (SnakeGame.snake_position g) (tl (SnakeGame.snake_body g))).
  { rewrite <- not_true_iff_false, existsb_exists. split.
    - intros Hno Hin. apply Hno. eexists. split; [exact Hin|]. by apply cell_eqb_eq.
    - intros Hno (c & Hin & Heq%cell_eqb_eq). by subst c. }
  rewrite Hbody. tauto.
Qed.

(** X10. The collision test of the game and the grid of the pathfinder
    agree: for a head on a cell corner, [check_collisions] is false exactly
    when the head's cell is inside the 72 x 48 grid and the head is on no
    other segment of the body. *)
Theorem no_collision_iff_in_grid_and_off_body (g : SnakeGame.t) :
  aligned (SnakeGame.snake_position g) ->
  SnakeGame.check_collisions g = false <->
  (in_bounds (pathfinder game_ai)
     (pixel_to_grid (pathfinder game_ai) (SnakeGame.snake_position g)) = true /\
   ~ In (SnakeGame.snake_position g) (tl (SnakeGame.snake_body g))).
Proof. apply check_collisions_false_iff. Qed.

Lemma no_collision_iff_in_grid_and_off_body_witness :
  SnakeGame.check_collisions (SnakeGame.reset_game SnakeGame.AI_MODE 15 5) = false.
Proof.
  apply no_collision_iff_in_grid_and_off_body; [by vm_compute|].
  split; [reflexivity|]. simpl. intros [H|[H|[H|[]]]]; discriminate H.
Defined.

(** ** The game loop *)

Lemma step_pos_move_pos p d : step_pos p d = move_pos p d.
Proof. by destruct d. Qed.

Lemma aligned_move_pos p d : aligned p -> aligned (move_pos p d).
Proof.
  destruct p as [x y]. unfold aligned. intros [Hx Hy].
  destruct d; simpl in *; split; try done.
  - by rewrite <- (Z.add_opp_r y 10), <- Zplus_mod_idemp_l, Hy.
  - by rewrite <- Zplus_mod_idemp_l, Hy.
  - by rewrite <- (Z.add_opp_r x 10), <- Zplus_mod_idemp_l, Hx.
  - by rewrite <- Zplus_mod_idemp_l, Hx.
Qed.

Lemma one_move_apart_move_pos p d : one_move_apart (move_pos p d) p.
Proof. destruct p as [x y]. unfold one_move_apart. destruct d; simpl; lia. Qed.

Lemma aligned_new_fruit rx ry : aligned (new_fruit_position rx ry).
Proof. unfold aligned, new_fruit_position. simpl. by rewrite !Z.mod_mul. Qed.

Lemma nth_error_removelast {A} (l : list A) i a :
  nth_error (removelast l) i = Some a -> nth_error l i = Some a.
Proof.
  revert i. induction l as [|x [|y l] IH]; intros i Hi; simpl in *.
  - by destruct i.
  - by destruct i.
  - destruct i as [|i]; [done|]. by apply IH.
Qed.

Lemma Forall_removelast {A} (P : A -> Prop) (l : list A) :
  Forall P l -> Forall P (removelast l).
Proof.
  induction l as [|x [|y l] IH]; intros Hl; simpl in *; try done.
  inversion Hl; subst. constructor; [done | by apply IH].
Qed.

Lemma In_removelast {A} (l : list A) a : In a (removelast l) -> In a l.
Proof.
  induction l as [|x [|y l] IH]; simpl in *; try done.
  intros [->|Hin]; [by left | right; by apply IH].
Qed.

Lemma NoDup_removelast {A} (l : list A) : List.NoDup l -> List.NoDup (removelast l).
Proof.
  induction l as [|x [|y l] IH]; intros Hl; simpl in *; try done.
  { constructor. }
  inversion Hl as [|? ? Hx Hrest]; subst. constructor; [|by apply IH].
  intros Hin. apply Hx. by apply (In_removelast (y :: l)).
Qed.

(** The state a tick leads to, field by field. *)
Lemma tick_fields g rx ry :
  let d := SnakeGame.validate (SnakeGame.requested g) (SnakeGame.direction g) in
  let p := move_pos (SnakeGame.snake_position g) d in
  let eaten := cell_eqb p (SnakeGame.fruit_position g) in
  let g' := fst (SnakeGame.tick g rx ry) in
  SnakeGame.snake_ai g' = SnakeGame.snake_ai g /\
  SnakeGame.game_mode g' = SnakeGame.game_mode g /\
  SnakeGame.direction g' = d /\
  SnakeGame.snake_position g' = p /\
  SnakeGame.snake_body g'
    = (if eaten then p :: SnakeGame.snake_body g
       else removelast (p :: SnakeGame.snake_body g)) /\
  SnakeGame.fruit_position g'
    = (if eaten || negb (SnakeGame.fruit_spawn g)
       then new_fruit_position rx ry else SnakeGame.fruit_position g) /\
  SnakeGame.fruit_spawn g' = true /\
  SnakeGame.score g' = (if eaten then SnakeGame.score g + 10 else SnakeGame.score g) /\
  snd (SnakeGame.tick g rx ry) = SnakeGame.check_collisions g'.
Proof. cbn. by destruct (cell_eqb _ _) eqn:E. Qed.

Lemma game_inv_reset_game mode rx ry : game_inv (SnakeGame.reset_game mode rx ry).
Proof.
  split; simpl.
  - done.
  - exists (90, 50), [(80, 50); (70, 50)]. simpl. split; [done|]. split; [done | lia].
  - intros [|[|[|[|i]]]] a b Ha Hb; simpl in *; try done;
      injection Ha as <-; injection Hb as <-; left; simpl; lia.
  - repeat constructor.
  - apply aligned_new_fruit.
  - done.
  - done.
Qed.

Lemma alive_reset_game mode rx ry : alive (SnakeGame.reset_game mode rx ry).
Proof.
  split; simpl.
  - unfold window_x, window_y. lia.
  - repeat constructor; simpl; intros H; repeat destruct H as [H|H]; done.
Qed.

Lemma game_inv_tick g rx ry : game_inv g -> game_inv (fst (SnakeGame.tick g rx ry)).
Proof.
  intros [Hai (neck & rest & Hbody & Hneck & Hlen) Hchain Haligned Hfruit Hspawn Hscore].
  destruct (tick_fields g rx ry)
    as (Eai & _ & Edir & Epos & Ebody & Efruit & Espawn & Escore & _).
  cbn zeta in *.
  set (d := SnakeGame.validate (SnakeGame.requested g) (SnakeGame.direction g)) in *.
  set (p := move_pos (SnakeGame.snake_position g) d) in *.
  assert (Hp : aligned p).
  { apply aligned_move_pos. rewrite Hbody in Haligned. by inversion Haligned. }
  assert (Hgrown : forall i a b,
            nth_error (p :: SnakeGame.snake_body g) i = Some a ->
            nth_error (p :: SnakeGame.snake_body g) (S i) = Some b ->
            one_move_apart a b).
  { intros [|i] a b Ha Hb.
    - simpl in Ha. injection Ha as <-. rewrite Hbody in Hb. simpl in Hb.
      injection Hb as <-. apply one_move_apart_move_pos.
    - by apply (Hchain i). }
  split.
  - by rewrite Eai.
  - rewrite Epos, Ebody, Edir, Hbody. destruct (cell_eqb _ _).
    + exists (SnakeGame.snake_position g), (neck :: rest).
      split; [done|]. split; [done | simpl; lia].
    + exists (SnakeGame.snake_position g), (removelast (neck :: rest)).
      split; [|split; [done|]].
      * destruct rest as [|r rest]; [simpl in Hlen; lia | done].
      * rewrite removelast_length. simpl. lia.
  - rewrite Ebody. destruct (cell_eqb _ _); [done|].
    intros i a b Ha%nth_error_removelast Hb%nth_error_removelast. by apply (Hgrown i).
  - rewrite Ebody. destruct (cell_eqb _ _).
    + by constructor.
    + apply Forall_removelast. by constructor.
  - rewrite Efruit. destruct (_ || _); [apply aligned_new_fruit | done].
  - done.
  - rewrite Ebody, Escore, Hscore. destruct (cell_eqb _ _).
    + simpl length. lia.
    + rewrite removelast_length. simpl length. lia.
Qed.

(** A tick that reports no collision leaves the snake inside the window and
    on pairwise distinct positions, when it was so before. *)
Lemma alive_tick g rx ry :
  alive g -> snd (SnakeGame.tick g rx ry) = false ->
  alive (fst (SnakeGame.tick g rx ry)).
Proof.
  intros [_ Hnodup] Hcollided.
  destruct (tick_fields g rx ry) as (_ & _ & _ & Epos & Ebody & _ & _ & _ & Ecoll).
  cbn zeta in *. rewrite Hcollided in Ecoll. symmetry in Ecoll.
  unfold SnakeGame.check_collisions in Ecoll. rewrite !orb_false_iff, !Z.ltb_ge in Ecoll.
  destruct Ecoll as [[[[Hx0 Hx1] Hy0] Hy1] Hself].
  split; [lia|].
  assert (Hoff : ~ In (SnakeGame.snake_position (fst (SnakeGame.tick g rx ry)))
                      (tl (SnakeGame.snake_body (fst (SnakeGame.tick g rx ry))))).
  { intros Hin. apply not_true_iff_false in Hself. apply Hself, existsb_exists.
    eexists. split; [exact Hin|]. by apply cell_eqb_eq. }
  rewrite Epos, Ebody in Hoff. rewrite Ebody.
  destruct (cell_eqb _ _).
  - simpl in Hoff. by constructor.
  - destruct (SnakeGame.snake_body g) as [|h body]; [simpl; constructor|].
    change (removelast (?p :: h :: body)) with (p :: removelast (h :: body)) in *.
    simpl tl in Hoff. constructor; [done | by apply NoDup_removelast].
Qed.

Section run_facts.
Variable rng : nat -> Z * Z.

Lemma game_inv_Run_reset_game g draw :
  game_inv g -> game_inv (SnakeGameRun.reset_game g draw) /\
                alive (SnakeGameRun.reset_game g draw).
Proof.
  intros Hinv.
  pose proof (game_inv_reset_game (SnakeGame.game_mode g) (fst draw) (snd draw)) as Hfresh.
  pose proof (alive_reset_game (SnakeGame.game_mode g) (fst draw) (snd draw)) as Halive.
  split; [|exact Halive].
  destruct Hfresh as [_ Hhead Hchain Haligned Hfruit Hspawn Hscore].
  split; try done. simpl. apply (gi_ai g Hinv).
Qed.

Lemma handle_key_inv g n key :
  game_inv g ->
  game_inv (fst (SnakeGameRun.handle_key rng g n key)) /\
  (alive g -> alive (fst (SnakeGameRun.handle_key rng g n key))).
Proof.
  intros Hinv.
  assert (Hsame : forall g', SnakeGame.snake_ai g' = SnakeGame.snake_ai g ->
            SnakeGame.snake_position g' = SnakeGame.snake_position g ->
            SnakeGame.snake_body g' = SnakeGame.snake_body g ->
            SnakeGame.fruit_position g' = SnakeGame.fruit_position g ->
            SnakeGame.fruit_spawn g' = SnakeGame.fruit_spawn g ->
            SnakeGame.direction g' = SnakeGame.direction g ->
            SnakeGame.score g' = SnakeGame.score g ->
            game_inv g' /\ (alive g -> alive g')).
  { intros g' Eai Epos Ebody Efruit Espawn Edir Escore.
    destruct Hinv as [Hai Hhead Hchain Haligned Hfruit Hspawn Hscore]. split.
    - split; rewrite ?Eai, ?Epos, ?Ebody, ?Efruit, ?Espawn, ?Edir, ?Escore; done.
    - unfold alive. by rewrite Epos, Ebody. }
  destruct key; simpl;
    try (destruct (SnakeGame.game_mode g); simpl; by apply Hsame).
  destruct (game_inv_Run_reset_game g (rng n) Hinv). by split.
Qed.

Lemma handle_events_inv events g n :
  game_inv g ->
  game_inv (SnakeGameRun.handle_events rng g n events).1.1 /\
  (alive g -> alive (SnakeGameRun.handle_events rng g n events).1.1).
Proof.
  revert g n. induction events as [|event events IH]; intros g n Hinv; [done|].
  destruct event as [|key|]; simpl; [done| |by apply IH].
  destruct (handle_key_inv g n key Hinv) as [Hinv' Halive'].
  destruct (SnakeGameRun.handle_key rng g n key) as [g' n']. simpl in *.
  destruct (IH g' n' Hinv') as [Hinv'' Halive'']. split; [done|]. auto.
Qed.

Lemma wait_for_restart_inv events st :
  game_inv (SnakeGameRun.game st) ->
  (SnakeGameRun.game_over_state st = false -> alive (SnakeGameRun.game st)) ->
  let st' := SnakeGameRun.wait_for_restart rng st events in
  game_inv (SnakeGameRun.game st') /\
  (SnakeGameRun.game_over_state st' = false -> alive (SnakeGameRun.game st')).
Proof.
  revert st. induction events as [|event events IH]; intros st Hinv Halive; [done|].
  destruct event as [|[]|]; simpl; try (by apply IH).
  destruct (game_inv_Run_reset_game (SnakeGameRun.game st) (rng (SnakeGameRun.draws st)) Hinv).
  by apply IH.
Qed.

Lemma frame_inv st events later_events :
  game_inv (SnakeGameRun.game st) ->
  (SnakeGameRun.game_over_state st = false -> alive (SnakeGameRun.game st)) ->
  let st' := SnakeGameRun.frame rng st events later_events in
  game_inv (SnakeGameRun.game st') /\
  (SnakeGameRun.game_over_state st' = false -> alive (SnakeGameRun.game st')).
Proof.
  intros Hinv Halive. unfold SnakeGameRun.frame.
  destruct (handle_events_inv events (SnakeGameRun.game st) (SnakeGameRun.draws st) Hinv)
    as [Hinv' Halive'].
  destruct (SnakeGameRun.handle_events rng _ _ events) as [[g n] continue].
  cbn [fst snd] in Hinv', Halive'.
  destruct continue; cbn [negb]; [|cbn; auto].
  destruct (SnakeGameRun.game_over_state st) eqn:Eover; cbn [negb].
  - by apply wait_for_restart_inv.
  - pose proof (game_inv_tick g (rng n).1 (rng n).2 Hinv') as Htick.
    pose proof (alive_tick g (rng n).1 (rng n).2 (Halive' (Halive eq_refl))) as Halive''.
    destruct (SnakeGame.tick g (rng n).1 (rng n).2) as [g' collided].
    cbn [fst snd SnakeGameRun.game SnakeGameRun.game_over_state] in *. by split.
Qed.

Lemma run_inv frames st :
  game_inv (SnakeGameRun.game st) ->
  (SnakeGameRun.game_over_state st = false -> alive (SnakeGameRun.game st)) ->
  let st' := SnakeGameRun.run rng st frames in
  game_inv (SnakeGameRun.game st') /\
  (SnakeGameRun.game_over_state st' = false -> alive (SnakeGameRun.game st')).
Proof.
  revert st. induction frames as [|[events later_events] frames IH]; intros st Hinv Halive;
    [done|].
  simpl. destruct (SnakeGameRun.running st); [|done].
  destruct (frame_inv st events later_events Hinv Halive). by apply IH.
Qed.
End run_facts.

(** X12. Whatever the keys pressed and the numbers drawn, every state the
    main loop of [snake_ai.py] reaches keeps this: the head is the first
    segment of the body and lies one move, in the current direction, from the
    second; the body has at least 4 segments, each one move from the next; all
    positions are on cell corners; the score is 10 times the number of
    segments gained; and as long as the game is not over, the head is inside
    the window and no two segments share a position. *)
Theorem game_loop_invariants (rng : nat -> Z * Z) (mode : SnakeGame.GameMode)
    (frames : list (list SnakeGameRun.Event * list SnakeGameRun.Event)) :
  let st := SnakeGameRun.run rng (SnakeGameRun.init rng mode) frames in
  game_inv (SnakeGameRun.game st) /\
  (SnakeGameRun.game_over_state st = false -> alive (SnakeGameRun.game st)).
Proof.
  apply run_inv; simpl.
  - apply game_inv_reset_game.
  - intros _. apply alive_reset_game.
Qed.

(** ** The policy in the game *)

(** From a head on a cell corner, the direction towards the corner of an
    adjacent cell leads onto that corner. *)
Lemma direction_to_adjacent_cell pf head c :
  cell_size pf = 10 -> aligned head -> grid_step (pixel_to_grid pf head) c ->
  let d := get_next_direction head (grid_to_pixel pf c) in
  move_pos head d = grid_to_pixel pf c /\ pixel_to_grid pf (move_pos head d) = c.
Proof.
  intros Hcs [Hx Hy] (v & Hv & ->). cbn zeta.
  assert (Hmove : move_pos head
                    (get_next_direction head
                       (grid_to_pixel pf ((pixel_to_grid pf head).1 + v.1,
                                          (pixel_to_grid pf head).2 + v.2)))
                  = grid_to_pixel pf ((pixel_to_grid pf head).1 + v.1,
                                      (pixel_to_grid pf head).2 + v.2)).
  { destruct head as [x y]. unfold pixel_to_grid, grid_to_pixel. rewrite Hcs.
    simpl in *. apply Z.div_exact in Hx; [|lia]. apply Z.div_exact in Hy; [|lia].
    set (a := x / 10) in *. set (b := y / 10) in *.
    unfold get_next_direction. simpl.
    destruct Hv as [<-|[<-|[<-|[<-|[]]]]]; simpl;
      repeat match goal with
             | |- context [Z.ltb ?u ?w] => destruct (Z.ltb_spec u w)
             end; simpl; try lia; f_equal; lia. }
  split; [done|]. rewrite Hmove. apply pixel_grid_pixel. lia.
Qed.

(** The move towards the second cell of a returned path of two cells or more
    lands on that cell, which is free. *)
Lemma path_step_is_free ai head goal_pos snake_body path next_pos :
  cell_size (pathfinder ai) = 10 -> aligned head ->
  find_path (pathfinder ai) head goal_pos snake_body = Some path ->
  nth_error path 1 = Some next_pos ->
  let d := get_next_direction head next_pos in
  move_pos head d = next_pos /\ free_move ai head snake_body d.
Proof.
  intros Hcs Halign (cells & -> & Hfirst & _ & Hsteps & Hcells)%find_path_cells
    (c & Hc & ->)%nth_error_map_Some. cbn zeta.
  pose proof (Hsteps 0%nat _ _ Hfirst Hc) as Hstep.
  destruct (direction_to_adjacent_cell (pathfinder ai) head c Hcs Halign Hstep)
    as [Hmove Hcell]. split; [done|].
  destruct (Hcells 1%nat c ltac:(lia) Hc) as [Hb Hsafe%is_safe_position_spec].
  unfold free_move, target_cell. rewrite step_pos_move_pos, Hcell.
  split; [done | by destruct c].
Qed.

(** X8. From a head on a cell corner, whenever the search for the food
    returns a path of two cells or more, the move of the policy leads onto the
    second cell of that path, and that cell is inside the grid and not an
    obstacle; and when both searches fail, the move leads to such a free cell
    if any of the four neighbours is one. *)
Theorem policy_move_is_free (ai : SnakeAI) (snake_head food_pos : Z * Z)
    (snake_body : list (Z * Z)) :
  cell_size (pathfinder ai) = 10 -> aligned snake_head ->
  let move := get_next_move ai snake_head food_pos snake_body in
  (forall path next_pos,
     find_path (pathfinder ai) snake_head food_pos snake_body = Some path ->
     nth_error path 1 = Some next_pos ->
     move_pos snake_head move = next_pos /\ free_move ai snake_head snake_body move) /\
  (second_cell (find_path (pathfinder ai) snake_head food_pos snake_body) = None ->
   second_cell (find_safe_path_to_tail (pathfinder ai) snake_head snake_body) = None ->
   (exists d, free_move ai snake_head snake_body d) ->
   free_move ai snake_head snake_body move).
Proof.
  intros Hcs Halign. cbn zeta. unfold get_next_move. split.
  - intros path next_pos Hfind Hnth.
    assert (Hsc : second_cell (find_path (pathfinder ai) snake_head food_pos snake_body)
                  = Some next_pos).
    { apply second_cell_spec. exists path. split; [done|]. split; [|done].
      assert (Hsome : nth_error path 1 <> None) by congruence.
      apply nth_error_Some in Hsome. lia. }
    rewrite Hsc. by apply (path_step_is_free ai snake_head food_pos snake_body path).
  - intros -> -> [d Hfree].
    destruct (make_safe_move_spec ai snake_head snake_body)
      as [(_ & _ & _ & Hmove & _)|[_ Hnone]]; [done|]. by destruct (Hnone d).
Qed.

Lemma policy_move_is_free_witness :
  move_pos (100, 50) (get_next_move game_ai (100, 50) (150, 50) initial_body) = (110, 50) /\
  free_move game_ai (100, 50) initial_body
            (get_next_move game_ai (100, 50) (150, 50) initial_body).
Proof.
  apply (proj1 (policy_move_is_free game_ai (100, 50) (150, 50) initial_body
                  eq_refl ltac:(by vm_compute))
           [(100, 50); (110, 50); (120, 50); (130, 50); (140, 50); (150, 50)]);
    [by vm_compute | reflexivity].
Defined.

(** A move onto a free cell, with the food off the snake, ends in no
    collision. *)
Lemma free_move_no_collision g rx ry :
  SnakeGame.snake_ai g = game_ai ->
  aligned (SnakeGame.snake_position g) ->
  free_move game_ai (SnakeGame.snake_position g) (SnakeGame.snake_body g)
            (SnakeGame.validate (SnakeGame.requested g) (SnakeGame.direction g)) ->
  ~ In (SnakeGame.fruit_position g) (SnakeGame.snake_body g) ->
  snd (SnakeGame.tick g rx ry) = false.
Proof.
  intros Hai Halign [Hb Hfree] Hfruit.
  destruct (tick_fields g rx ry) as (_ & _ & _ & Epos & Ebody & _ & _ & _ & ->).
  cbn zeta in *.
  set (d := SnakeGame.validate (SnakeGame.requested g) (SnakeGame.direction g)) in *.
  unfold target_cell in *. rewrite step_pos_move_pos in *.
  set (p := move_pos (SnakeGame.snake_position g) d) in *.
  apply check_collisions_false_iff; rewrite Epos; [by apply aligned_move_pos|].
  split; [done|]. rewrite Ebody.
  destruct (cell_eqb p (SnakeGame.fruit_position g)) eqn:Eeaten.
  - apply cell_eqb_eq in Eeaten. simpl. by rewrite Eeaten.
  - rewrite snake_grid_positions_ignore_tail in Hfree.
    destruct (SnakeGame.snake_body g) as [|h [|h' body]];
      [simpl; tauto | simpl; tauto |].
    change (tl (removelast (p :: h :: h' :: body))) with (removelast (h :: h' :: body)).
    intros Hin. apply Hfree.
    replace (2 <=? length (h :: h' :: body))%nat with true by done.
    by apply in_map.
Qed.

(** X9. Any tick, in manual or AI mode, that moves the head from a cell
    corner onto a free cell (inside the grid, not on the body with the tail
    ignored) while the food is not on the snake, ends without collision. *)
Theorem free_move_survives_the_tick (g : SnakeGame.t) (rx ry : Z) :
  SnakeGame.snake_ai g = game_ai ->
  aligned (SnakeGame.snake_position g) ->
  free_move game_ai (SnakeGame.snake_position g) (SnakeGame.snake_body g)
            (SnakeGame.direction (SnakeGame.update_direction g)) ->
  ~ In (SnakeGame.fruit_position g) (SnakeGame.snake_body g) ->
  snd (SnakeGame.tick g rx ry) = false.
Proof. apply free_move_no_collision. Qed.

Lemma free_move_survives_the_tick_witness :
  snd (SnakeGame.tick (SnakeGame.reset_game SnakeGame.AI_MODE 15 5) 3 3) = false.
Proof.
  apply free_move_survives_the_tick.
  - reflexivity.
  - by vm_compute.
  - vm_compute. split; [reflexivity|]. intros [H|[H|[H|[]]]]; discriminate H.
  - simpl. intros [H|[H|[H|[H|[]]]]]; discriminate H.
Defined.

(** X16. In AI mode, in a state as the main loop keeps it ([game_inv]), when
    the search finds a path of two cells or more to the food and the food is
    not on the snake, the tick is not a reversal, moves the head onto the
    second cell of that path and ends without collision. *)
Theorem ai_tick_follows_the_path (g : SnakeGame.t) (rx ry : Z)
    (path : list (Z * Z)) (next_pos : Z * Z) :
  game_inv g ->
  SnakeGame.game_mode g = SnakeGame.AI_MODE ->
  find_path (pathfinder game_ai) (SnakeGame.snake_position g)
            (SnakeGame.fruit_position g) (SnakeGame.snake_body g) = Some path ->
  nth_error path 1 = Some next_pos ->
  ~ In (SnakeGame.fruit_position g) (SnakeGame.snake_body g) ->
  let g' := fst (SnakeGame.tick g rx ry) in
  snd (SnakeGame.tick g rx ry) = false /\
  SnakeGame.snake_position g' = next_pos /\
  SnakeGame.direction g' <> opposite (SnakeGame.direction g).
Proof.
  intros [Hai (neck & rest & Hbody & Hneck & Hlen) _ Haligned _ _ _] Hmode Hfind Hnth Hfruit.
  cbn zeta.
  assert (Halign : aligned (SnakeGame.snake_position g)).
  { rewrite Hbody in Haligned. by inversion Haligned. }
  assert (Hreq : SnakeGame.requested g
                 = get_next_direction (SnakeGame.snake_position g) next_pos).
  { unfold SnakeGame.requested, get_next_move. rewrite Hmode, Hai, Hfind.
    assert (Hsc : second_cell (Some path) = Some next_pos).
    { apply second_cell_spec. exists path. split; [done|]. split; [|done].
      assert (Hsome : nth_error path 1 <> None) by congruence.
      apply nth_error_Some in Hsome. lia. }
    by rewrite Hsc. }
  destruct (path_step_is_free game_ai _ _ _ path next_pos eq_refl Halign Hfind Hnth)
    as [Hmove Hfree]. cbn zeta in *. rewrite <- Hreq in *.
  assert (Hforward : SnakeGame.requested g <> opposite (SnakeGame.direction g)).
  { intros Hback. destruct Hfree as [_ Hfree]. apply Hfree.
    rewrite snake_grid_positions_ignore_tail, Hbody.
    replace (2 <=? length (SnakeGame.snake_position g :: neck :: rest))%nat
      with true by done.
    unfold target_cell. rewrite step_pos_move_pos, Hback.
    assert (Hto_neck : move_pos (SnakeGame.snake_position g)
                         (opposite (SnakeGame.direction g)) = neck).
    { rewrite <- Hneck. destruct neck as [x y].
      destruct (SnakeGame.direction g); simpl; f_equal; lia. }
    rewrite Hto_neck. apply in_map.
    destruct rest as [|r rest]; [simpl in Hlen; lia|]. simpl. tauto. }
  assert (Hvalid : SnakeGame.validate (SnakeGame.requested g) (SnakeGame.direction g)
                   = SnakeGame.requested g).
  { rewrite SnakeGame_validate_cases.
    destruct (Direction_eqb _ _) eqn:E; [|done]. by apply Direction_eqb_eq in E. }
  destruct (tick_fields g rx ry) as (_ & _ & Edir & Epos & _). cbn zeta in *.
  rewrite Epos, Edir, Hvalid. split; [|done].
  apply free_move_no_collision; try done. by rewrite Hvalid.
Qed.

Lemma ai_tick_follows_the_path_witness :
  let g := SnakeGame.reset_game SnakeGame.AI_MODE 15 5 in
  snd (SnakeGame.tick g 3 3) = false /\
  SnakeGame.snake_position (fst (SnakeGame.tick g 3 3)) = (110, 50) /\
  SnakeGame.direction (fst (SnakeGame.tick g 3 3)) <> LEFT.
Proof.
  apply (ai_tick_follows_the_path (SnakeGame.reset_game SnakeGame.AI_MODE 15 5) 3 3
           [(100, 50); (110, 50); (120, 50); (130, 50); (140, 50); (150, 50)] (110, 50)).
  - apply game_inv_reset_game.
  - reflexivity.
  - by vm_compute.
  - reflexivity.
  - simpl. intros [H|[H|[H|[H|[]]]]]; discriminate H.
Defined.

(** X11. In manual mode the two drivers agree: a tick of [snake_ai.py] and
    an iteration of the main loop of [Snake.py] lead from the same state to
    the same state, and one reports a collision exactly when the other calls
    [game_over]. *)
Theorem drivers_agree_in_manual_mode (g : SnakeGame.t) (rx ry : Z) :
  SnakeGame.game_mode g = SnakeGame.MANUAL_MODE ->
  SnakePy.tick (to_SnakePy g) rx ry
  = (to_SnakePy (fst (SnakeGame.tick g rx ry)), snd (SnakeGame.tick g rx ry)).
Proof.
  intros Hmode. destruct g as [ai pos body fruit spawn dir ch sc mode].
  simpl in Hmode. subst mode.
  set (g := {| SnakeGame.snake_ai := ai; SnakeGame.snake_position := pos;
               SnakeGame.snake_body := body; SnakeGame.fruit_position := fruit;
               SnakeGame.fruit_spawn := spawn; SnakeGame.direction := dir;
               SnakeGame.change_to := ch; SnakeGame.score := sc;
               SnakeGame.game_mode := SnakeGame.MANUAL_MODE |}).
  assert (Hstate : fst (SnakePy.tick (to_SnakePy g) rx ry)
                   = to_SnakePy (fst (SnakeGame.tick g rx ry))).
  { subst g.
    unfold to_SnakePy, SnakeGame.tick, SnakeGame.check_food_collision,
      SnakeGame.move_snake, SnakeGame.update_direction, SnakeGame.requested.
    cbn -[SnakeGame.validate SnakePy.validate].
    rewrite SnakeGame_validate_cases, SnakePy_validate_cases.
    by destruct (cell_eqb _ fruit), spawn. }
  change (SnakePy.tick (to_SnakePy g) rx ry)
    with (fst (SnakePy.tick (to_SnakePy g) rx ry),
          SnakePy.game_over (fst (SnakePy.tick (to_SnakePy g) rx ry))).
  by rewrite Hstate.
Qed.

Lemma drivers_agree_in_manual_mode_witness :
  let g := SnakeGame.reset_game SnakeGame.MANUAL_MODE 11 5 in
  SnakePy.tick (to_SnakePy g) 7 9
  = (to_SnakePy (fst (SnakeGame.tick g 7 9)), snd (SnakeGame.tick g 7 9)).
Proof. apply drivers_agree_in_manual_mode. reflexivity. Defined.

(** ** The shape of a returned path *)

(** Induction along the parent links. *)
Lemma Node_parent_ind (P : Node -> Prop) :
  (forall n, parent n = None -> P n) ->
  (forall n p, parent n = Some p -> P p -> P n) ->
  forall n, P n.
Proof.
  intros Hroot Hstep. fix IH 1.
  intros [x y g h f [p|]];
    [apply (Hstep (mkNode x y g h f (Some p)) p eq_refl), IH | by apply Hroot].
Qed.

Lemma NoDup_map_inj {A B} (f : A -> B) (l : list A) x y :
  List.NoDup (map f l) -> In x l -> In y l -> f x = f y -> x = y.
Proof.
  induction l as [|a l IH]; intros Hnd Hx Hy Hf; [done|].
  simpl in Hnd. inversion Hnd as [|? ? Ha Hrest]; subst.
  destruct Hx as [->|Hx], Hy as [->|Hy]; try done.
  - destruct Ha. rewrite Hf. by apply in_map.
  - destruct Ha. rewrite <- Hf. by apply in_map.
  - by apply IH.
Qed.

Section ancestry.
Variables (pf : AStarPathfinder) (goal_node : Node) (snake_body : list (Z * Z))
          (start_node : Node).
Hypothesis start_root : parent start_node = None.

Lemma ancestry_inv_init :
  ancestry_inv pf goal_node snake_body start_node (heapq.heappush [] start_node) [].
Proof.
  split; [apply search_inv_init|].
  intros n p Hn Hp. change (heapq.heappush [] start_node) with [start_node] in Hn.
  destruct Hn as [<-|[]]. congruence.
Qed.

Lemma ancestry_inv_step open_set closed_set m open_set' :
  ancestry_inv pf goal_node snake_body start_node open_set closed_set ->
  heapq.heappop open_set = Some (m, open_set') ->
  Node_eq m goal_node = false ->
  ancestry_inv pf goal_node snake_body start_node
    (expand pf goal_node snake_body (m :: closed_set) m open_set')
    (m :: closed_set).
Proof.
  intros [Hinv Hparent] Hpop _.
  pose proof (heappop_perm _ _ _ Hpop) as Hperm.
  split; [by eapply search_inv_step|].
  intros n p [Hn|[<-|Hn]]%in_app_iff Hp.
  - apply fold_visit_origin in Hn as [Hn|(nb & _ & -> & _)].
    + right. apply (Hparent n); [|done]. apply in_app_iff. left.
      apply (Permutation_in _ (symmetry Hperm)). by right.
    + simpl in Hp. injection Hp as <-. by left.
  - right. apply (Hparent m); [|done]. apply in_app_iff. left.
    apply (Permutation_in _ (symmetry Hperm)). by left.
  - right. apply (Hparent n); [|done]. apply in_app_iff. by right.
Qed.

Lemma reached_g_cost n p :
  reached pf goal_node snake_body start_node n -> parent n = Some p ->
  g_cost n = g_cost p + 1.
Proof.
  intros [|cur nb _ _ _] Hp; [congruence|]. simpl in Hp. by injection Hp as <-.
Qed.

(** The nodes above a held node are closed nodes of smaller [g_cost]. *)
Lemma ancestors_closed open_set closed_set :
  ancestry_inv pf goal_node snake_body start_node open_set closed_set ->
  forall n, In n (open_set ++ closed_set) ->
  forall a, In a (tl (parent_chain n)) -> In a closed_set /\ g_cost a < g_cost n.
Proof.
  intros [Hinv Hparent] n. induction n as [n Hn|n p Hp IH] using Node_parent_ind;
    intros Hin a Ha.
  - destruct n as [x y g h f q]. simpl in *. subst q. done.
  - assert (Hchain : tl (parent_chain n) = parent_chain p).
    { destruct n as [x y g h f q]. simpl in *. by subst q. }
    rewrite Hchain in Ha.
    pose proof (Hparent n p Hin Hp) as Hpc.
    pose proof (reached_g_cost n p (inv_reached _ _ _ _ _ _ Hinv n Hin) Hp) as Hg.
    assert (Hpin : In p (open_set ++ closed_set)) by (apply in_app_iff; by right).
    destruct p as [x y g h f q]. simpl in Ha. destruct Ha as [<-|Ha].
    + split; [done | lia].
    + destruct (IH Hpin a Ha) as [Hac Hag]. split; [done | lia].
Qed.

Lemma chain_cells_NoDup open_set closed_set :
  ancestry_inv pf goal_node snake_body start_node open_set closed_set ->
  forall n, In n (open_set ++ closed_set) ->
  List.NoDup (map cell_of (parent_chain n)).
Proof.
  intros Hanc n. pose proof Hanc as [Hinv Hparent].
  induction n as [n Hn|n p Hp IH] using Node_parent_ind; intros Hin.
  - destruct n as [x y g h f q]. simpl in *. subst q. simpl.
    constructor; [by intros [] | constructor].
  - assert (Hchain : parent_chain n = n :: parent_chain p).
    { destruct n as [x y g h f q]. simpl in *. by subst q. }
    rewrite Hchain. simpl. constructor.
    + intros (a & Hcell & Ha)%in_map_iff.
      destruct (ancestors_closed _ _ Hanc n Hin a) as [Hac Hag].
      { by rewrite Hchain. }
      assert (a = n).
      { apply (NoDup_map_inj cell_of (open_set ++ closed_set));
          [apply (inv_nodup _ _ _ _ _ _ Hinv) | apply in_app_iff; by right | done | done]. }
      subst a. lia.
    + apply IH, in_app_iff. right. by apply (Hparent n).
Qed.
End ancestry.

(** The node whose path [find_path] returns, with the state it was popped
    from. *)
Lemma find_path_popped_node pf start_pos goal_pos snake_body path :
  find_path pf start_pos goal_pos snake_body = Some path ->
  exists open_set closed_set n open_set',
    ancestry_inv pf (goal_node_of pf goal_pos) snake_body (start_node_of pf start_pos)
                 open_set closed_set /\
    heapq.heappop open_set = Some (n, open_set') /\
    path = _reconstruct_path pf n.
Proof.
  unfold find_path, find_path_from. intros Hfind.
  pose proof (search_loop_inv pf (goal_node_of pf goal_pos) snake_body
                (ancestry_inv pf (goal_node_of pf goal_pos) snake_body
                              (start_node_of pf start_pos))
                (ancestry_inv_step pf _ _ _)
                (search_fuel pf) _ []
                (ancestry_inv_init pf (goal_node_of pf goal_pos) snake_body
                                   (start_node_of pf start_pos) eq_refl)) as Hres.
  destruct (search_loop _ _ _ _ _ _) as [[[p|]|] closed_set]; simpl in Hfind; try done.
  injection Hfind as ->.
  destruct Hres as (open0 & closed0 & n & open' & Hinv & Hpop & _ & -> & _).
  by exists open0, closed0, n, open'.
Qed.

(** X3. A returned path is simple: no position occurs in it twice; so it has
    at most one cell more than the grid has cells. *)
Theorem returned_path_is_simple (pf : AStarPathfinder)
    (start_pos goal_pos : Z * Z) (snake_body path : list (Z * Z)) :
  cell_size pf <> 0 ->
  find_path pf start_pos goal_pos snake_body = Some path ->
  List.NoDup path /\
  (length path <= Z.to_nat (grid_cols pf) * Z.to_nat (grid_rows pf) + 1)%nat.
Proof.
  intros Hcs Hfind.
  pose proof Hfind as (open_set & closed_set & n & open_set' & Hanc & Hpop & ->)%find_path_popped_node.
  assert (Hn : In n (open_set ++ closed_set)).
  { apply in_app_iff. left.
    apply (Permutation_in _ (symmetry (heappop_perm _ _ _ Hpop))). by left. }
  pose proof (chain_cells_NoDup pf (goal_node_of pf goal_pos) snake_body
                (start_node_of pf start_pos) eq_refl _ _ Hanc n Hn) as Hnd.
  assert (Hcells : List.NoDup (chain_cells n)).
  { unfold chain_cells. by apply NoDup_rev. }
  rewrite reconstruct_path_cells in *. split.
  - assert (Hmap : forall l : list (Z * Z),
              List.NoDup l -> List.NoDup (map (grid_to_pixel pf) l)).
    { induction 1 as [|a l Ha Hl IH]; simpl; constructor; [|done].
      intros (b & Hab & Hb)%in_map_iff. apply Ha.
      by rewrite <- (pixel_grid_pixel pf a Hcs), <- Hab, pixel_grid_pixel. }
    by apply Hmap.
  - rewrite length_map.
    apply find_path_cells in Hfind as (cells & Hmap & Hfirst & _ & _ & Hin_grid).
    assert (cells = chain_cells n) as ->.
    { assert (Hinj : forall l l' : list (Z * Z),
                map (grid_to_pixel pf) l = map (grid_to_pixel pf) l' -> l = l').
      { induction l as [|a l IH]; intros [|b l'] Heq; cbn [map] in *; try done.
        assert (Hab : grid_to_pixel pf a = grid_to_pixel pf b) by congruence.
        assert (Hrest : map (grid_to_pixel pf) l = map (grid_to_pixel pf) l')
          by congruence.
        f_equal; [|by apply IH].
        by rewrite <- (pixel_grid_pixel pf a Hcs), Hab, pixel_grid_pixel. }
      by apply Hinj. }
    assert (Hincl : incl (chain_cells n) (pixel_to_grid pf start_pos :: all_cells pf)).
    { intros c (i & Hi)%In_nth_error. destruct i as [|i].
      - rewrite Hfirst in Hi. injection Hi as <-. by left.
      - right. apply in_bounds_all_cells. by apply (Hin_grid (S i) c ltac:(lia)). }
    apply NoDup_incl_length in Hincl; [|done].
    simpl in Hincl. rewrite all_cells_length in Hincl. lia.
Qed.

Lemma returned_path_is_simple_witness :
  exists path,
    find_path (pathfinder game_ai) (100, 50) (300, 200) initial_body = Some path /\
    List.NoDup path /\ (length path <= 72 * 48 + 1)%nat.
Proof.
  eexists. split; [vm_compute; reflexivity|].
  apply (returned_path_is_simple (pathfinder game_ai) (100, 50) (300, 200) initial_body);
    [simpl; lia | vm_compute; reflexivity].
Defined.

(** ** Where the search falls short *)

Lemma grid_stepb_spec a b : grid_stepb a b = true -> grid_step a b.
Proof.
  unfold grid_stepb. intros (d & Hd & Heq%cell_eqb_eq)%existsb_exists. by exists d.
Qed.

Lemma free_walkb_spec pf snake_body cells :
  free_walkb pf snake_body cells = true -> free_walk pf snake_body cells.
Proof.
  induction cells as [|a [|b rest] IH]; intros Hwalk.
  - split; intros [|i]; simpl; done.
  - split; [intros [|[|i]]; simpl; done|]. intros [|[|i]] c Hi; simpl; (done || lia).
  - cbn [free_walkb] in Hwalk, IH.
    apply andb_true_iff in Hwalk as [Hhead Hrest].
    apply andb_true_iff in Hhead as [Hhead Hsafe].
    apply andb_true_iff in Hhead as [Hstep Hbounds].
    destruct (IH Hrest) as [Hsteps Hcells]. split.
    + intros [|i] x y Hx Hy.
      * simpl in Hx, Hy. injection Hx as <-. injection Hy as <-.
        by apply grid_stepb_spec.
      * by apply (Hsteps i).
    + intros [|[|i]] x Hi Hx; [lia| |].
      * simpl in Hx. injection Hx as <-. split; [done|].
        apply is_safe_position_spec in Hsafe. by destruct b.
      * apply (Hcells (S i)); [lia | done].
Qed.

(** X5. The search does not always return a shortest path. With the snake
    below (15 segments, head at cell (6, 12), tail at (6, 16)) and food at
    cell (4, 17), it returns a path of 10 cells, while a free walk of 8 cells
    leads from the head to the food. *)
Theorem search_is_not_always_shortest :
  let pf := pathfinder game_ai in
  let snake_body :=
    [(60, 120); (60, 110); (50, 110); (40, 110); (30, 110); (20, 110); (20, 120);
     (20, 130); (20, 140); (20, 150); (20, 160); (30, 160); (40, 160); (50, 160);
     (60, 160)] in
  let walk := [(6, 12); (6, 13); (6, 14); (6, 15); (6, 16); (6, 17); (5, 17); (4, 17)] in
  exists path,
    find_path pf (60, 120) (40, 170) snake_body = Some path /\
    free_walk pf snake_body walk /\
    connects walk (pixel_to_grid pf (60, 120)) (pixel_to_grid pf (40, 170)) /\
    length path = 10%nat /\ length walk = 8%nat.
Proof.
  cbn zeta. eexists. split; [vm_compute; reflexivity|].
  split; [apply free_walkb_spec; by vm_compute|].
  split; [by split | by split].
Qed.

(** X17. The obstacles of the search to the tail, for every body of two
    segments or more: the search runs from the head to the last segment over
    the cells of the body without its last two segments when the body has
    three or more, and without its last segment when it has two. *)
Theorem tail_search_ignores_last_two_segments (pf : AStarPathfinder)
    (snake_head : Z * Z) (snake_body : list (Z * Z)) :
  (2 <= length snake_body)%nat ->
  find_safe_path_to_tail pf snake_head snake_body
    = find_path pf snake_head (List.last snake_body (0, 0)) (removelast snake_body) /\
  snake_grid_positions pf (removelast snake_body) true
    = map (pixel_to_grid pf)
          (if (3 <=? length snake_body)%nat
           then removelast (removelast snake_body) else removelast snake_body).
Proof. apply tail_search_obstacle_cells. Qed.

Lemma tail_search_ignores_last_two_segments_witness :
  snake_grid_positions (pathfinder game_ai) (removelast initial_body) true
  = [(10, 5); (9, 5)].
Proof.
  apply (proj2 (tail_search_ignores_last_two_segments (pathfinder game_ai) (100, 50)
                  initial_body ltac:(simpl; lia))).
Defined.

(** X18. The fallback to the tail can end the game where a free move was at
    hand. In the state below, as the main loop keeps states, the food is off
    the snake and cannot be reached, the cell to the left of the head is free,
    and the policy moves right, along its path to the tail, onto the
    second-to-last segment of the body: the tick ends in a collision. *)
Theorem tail_fallback_can_hit_the_body :
  let g :=
    {| SnakeGame.snake_ai := game_ai;
       SnakeGame.snake_position := (10, 0);
       SnakeGame.snake_body :=
         [(10, 0); (10, 10); (0, 10); (0, 20); (10, 20); (20, 20); (20, 10); (20, 0);
          (30, 0)];
       SnakeGame.fruit_position := (80, 10);
       SnakeGame.fruit_spawn := true;
       SnakeGame.direction := UP;
       SnakeGame.change_to := UP;
       SnakeGame.score := 50;
       SnakeGame.game_mode := SnakeGame.AI_MODE |} in
  game_inv g /\ alive g /\
  ~ In (SnakeGame.fruit_position g) (SnakeGame.snake_body g) /\
  free_move game_ai (SnakeGame.snake_position g) (SnakeGame.snake_body g) LEFT /\
  find_path (pathfinder game_ai) (SnakeGame.snake_position g)
            (SnakeGame.fruit_position g) (SnakeGame.snake_body g) = None /\
  find_safe_path_to_tail (pathfinder game_ai) (SnakeGame.snake_position g)
                         (SnakeGame.snake_body g) = Some [(10, 0); (20, 0); (30, 0)] /\
  SnakeGame.requested g = RIGHT /\
  forall rx ry, snd (SnakeGame.tick g rx ry) = true.
Proof.
  cbn zeta. split; [|split; [|split; [|split; [|split; [|split; [|split]]]]]].
  - split; simpl.
    + done.
    + eexists _, _. split; [reflexivity|]. split; [reflexivity | simpl; lia].
    + intros i a b Ha Hb.
      do 9 (destruct i as [|i];
            [simpl in Ha, Hb; try discriminate Hb;
             injection Ha as <-; injection Hb as <-;
             unfold one_move_apart; simpl; lia|]).
      by destruct i.
    + repeat constructor.
    + by split.
    + done.
    + done.
  - split; simpl.
    + unfold window_x, window_y. lia.
    + repeat constructor; simpl; intros H; repeat destruct H as [H|H]; done.
  - simpl. intros H; repeat destruct H as [H|H]; done.
  - split; [reflexivity|]. vm_compute. intros H; repeat destruct H as [H|H]; done.
  - by vm_compute.
  - by vm_compute.
  - by vm_compute.
  - intros rx ry. by vm_compute.
Qed.
